(** * SymCrypt, lib/dh.c: [SymCryptDhSecretAgreement]

    A shallow embedding of the Diffie-Hellman secret agreement of
    SymCrypt and the properties of its validation, scratch-memory
    lifecycle, exponent policy and error propagation.

    The C function works on a byte-addressed memory through pointers, calls
    the allocator callbacks and the multi-precision arithmetic layer, and
    leaves through one [cleanup] label.  The embedding keeps that shape:
    a state monad over a block memory and a call trace, one wrapper per
    library call, and the function body followed by its cleanup. *)

From Stdlib Require Import ZArith Lia Strings.Byte Zpow_facts.
From stdpp Require Import base option list gmap.

Local Open Scope Z_scope.

(** ** Integer types *)

(** [SIZE_T] on the 64-bit targets; unsigned arithmetic wraps. *)
Definition SIZE_T_BITS : Z := 64.
Definition SIZE_T_MODULUS : Z := 2 ^ SIZE_T_BITS.
Definition to_SIZE_T (z : Z) : Z := z mod SIZE_T_MODULUS.

(** ** Status codes *)

(** The statuses of [SYMCRYPT_ERROR] that dh.c names; the enumeration itself
    is declared in a header, and [SYMCRYPT_ERROR_other] stands for each of
    its remaining enumerators. *)
Inductive SYMCRYPT_ERROR : Type :=
| SYMCRYPT_NO_ERROR
| SYMCRYPT_WRONG_BLOCK_SIZE
| SYMCRYPT_INVALID_BLOB
| SYMCRYPT_INVALID_ARGUMENT
| SYMCRYPT_MEMORY_ALLOCATION_FAILURE
| SYMCRYPT_ERROR_other (code : Z).

Global Instance SYMCRYPT_ERROR_eq_dec : EqDecision SYMCRYPT_ERROR.
Proof. solve_decision. Defined.

(** [SYMCRYPT_NUMBER_FORMAT] is passed through to the encoder untouched. *)
Definition SYMCRYPT_NUMBER_FORMAT : Type := Z.

(** ** Memory *)

(** A pointer is [NULL] or a block and a byte offset into it. *)
Inductive pointer : Type :=
| NULL
| Ptr (b : nat) (ofs : Z).

Global Instance pointer_eq_dec : EqDecision pointer.
Proof. solve_decision. Defined.

Definition ptr_add (p : pointer) (n : Z) : pointer :=
  match p with
  | NULL => NULL
  | Ptr b ofs => Ptr b (ofs + n)
  end.

(** The storage of an opaque library object (modulus, integer, modular
    element): dh.c only ever passes such objects on. *)
Definition object : Type := list byte.

(** [splice ofs data bs]: the block [bs] after writing [data] at offset [ofs];
    a write never extends past the end of the block. *)
Definition splice (ofs : nat) (data bs : list byte) : list byte :=
  take ofs bs ++ take (length bs - ofs) data ++ drop (ofs + length data) bs.

Definition load (h : gmap nat (list byte)) (p : pointer) (n : Z) : list byte :=
  match p with
  | NULL => []
  | Ptr b ofs =>
      match h !! b with
      | Some bs => take (Z.to_nat n) (drop (Z.to_nat ofs) bs)
      | None => []
      end
  end.

Definition store (h : gmap nat (list byte)) (p : pointer) (data : list byte)
  : gmap nat (list byte) :=
  match p with
  | NULL => h
  | Ptr b ofs =>
      match h !! b with
      | Some bs => <[b := splice (Z.to_nat ofs) data bs]> h
      | None => h
      end
  end.

(** ** Call trace *)

(** What an instrumented allocator and arithmetic layer observe. *)
Inductive Event : Type :=
| EvAlloc (nBytes : Z) (p : pointer)
| EvModExp (nBitsExp flags : Z) (peDst : object)
| EvGetValue (cbDst : Z) (format : SYMCRYPT_NUMBER_FORMAT) (scError : SYMCRYPT_ERROR)
| EvWipe (p : pointer) (cb : Z)
| EvFree (p : pointer) (contents : list byte).

Definition is_alloc (e : Event) : bool :=
  match e with EvAlloc _ _ => true | _ => false end.
Definition is_wipe_or_free (e : Event) : bool :=
  match e with EvWipe _ _ | EvFree _ _ => true | _ => false end.
Definition is_get_value (e : Event) : bool :=
  match e with EvGetValue _ _ _ => true | _ => false end.

Record World : Type := mkWorld {
  heap : gmap nat (list byte);
  trace : list Event
}.

Definition log (e : Event) (w : World) : World :=
  mkWorld (heap w) (trace w ++ [e]).

(** ** The state monad of the embedding *)

Definition M (A : Type) : Type := World -> A * World.

Global Instance M_ret : MRet M := fun A (a : A) (w : World) => (a, w).
Global Instance M_bind : MBind M :=
  fun A B (f : A -> M B) (m : M A) (w : World) => let '(a, w1) := m w in f a w1.

(** ** Keys and groups *)

(** The fields of [SYMCRYPT_DLGROUP] and [SYMCRYPT_DLKEY] that dh.c reads. *)
Record SYMCRYPT_DLGROUP : Type := mkDlgroup {
  nBitsOfP : Z;
  nDigitsOfP : Z;
  pmP : object
}.

Record SYMCRYPT_DLKEY : Type := mkDlkey {
  fHasPrivateKey : bool;
  fPrivateModQ : bool;
  nBitsPriv : Z;
  pDlgroup : SYMCRYPT_DLGROUP;
  pePublicKey : object;
  piPrivateKey : object
}.

(** ** The collaborators of dh.c *)

(** Everything [SymCryptDhSecretAgreement] calls lives outside dh.c: the
    group predicate, the size queries, the arithmetic and the allocator
    callback.  Each is a parameter.  The arithmetic functions map the bytes
    they are handed to the bytes they leave behind. *)
Class Collaborators : Type := {
  SymCryptDlgroupIsSame : SYMCRYPT_DLGROUP -> SYMCRYPT_DLGROUP -> bool;
  SymCryptDlkeySizeofPublicKey : SYMCRYPT_DLKEY -> Z;
  SymCryptSizeofModElementFromModulus : object -> Z;
  SYMCRYPT_SCRATCH_BYTES_FOR_MODEXP : Z -> Z;
  SYMCRYPT_SCRATCH_BYTES_FOR_COMMON_MOD_OPERATIONS : Z -> Z;
  (* whether the allocator can serve a request, and what a fresh block holds *)
  alloc_succeeds : gmap nat (list byte) -> Z -> bool;
  alloc_contents : nat -> nat -> byte;
  (* modulus, old element storage -> initialised element storage *)
  ModElementCreate_bytes : object -> list byte -> list byte;
  (* modulus, base, exponent, nBitsExp, flags, old destination, old scratch
     -> destination, scratch *)
  ModExp_bytes : object -> object -> object -> Z -> Z -> list byte -> list byte
                 -> list byte * list byte;
  ModElementIsZero_bytes : object -> object -> bool;
  (* modulus, element, cbDst, format, old scratch -> status, output, scratch *)
  ModElementGetValue_bytes : object -> object -> Z -> SYMCRYPT_NUMBER_FORMAT -> list byte
                             -> SYMCRYPT_ERROR * list byte * list byte
}.

Section Agreement.
Context `{Collaborators}.

(** *** Allocator callbacks and wipe *)

(** Modelled from the spec: [SymCryptCallbackAlloc], [SymCryptWipe] and
    [SymCryptCallbackFree] are not part of dh.c (spec section 6: a
    byte-allocate/zero/free triplet).  An allocation either fails with
    [NULL] or yields a fresh block of the requested size with arbitrary
    contents; the wipe overwrites [cbData] bytes with zero; the release
    removes the block, and the trace records what the block held then. *)

Definition SymCryptCallbackAlloc (nBytes : Z) : M pointer :=
  fun w =>
    if alloc_succeeds (heap w) nBytes then
      let b := fresh (dom (heap w)) in
      let bs := alloc_contents b <$> seq 0 (Z.to_nat nBytes) in
      (Ptr b 0, log (EvAlloc nBytes (Ptr b 0)) (mkWorld (<[b := bs]> (heap w)) (trace w)))
    else
      (NULL, log (EvAlloc nBytes NULL) w).

Definition SymCryptWipe (pbData : pointer) (cbData : Z) : M unit :=
  fun w =>
    (tt, log (EvWipe pbData cbData)
           (mkWorld (store (heap w) pbData (replicate (Z.to_nat cbData) x00)) (trace w))).

Definition SymCryptCallbackFree (pMem : pointer) : M unit :=
  fun w =>
    match pMem with
    | NULL => (tt, log (EvFree NULL []) w)
    | Ptr b _ =>
        (tt, log (EvFree pMem (default [] (heap w !! b)))
               (mkWorld (delete b (heap w)) (trace w)))
    end.

(** *** Arithmetic layer *)

(** Modelled from the spec: the element construction, exponentiation,
    zero test and value extraction are not part of dh.c (spec sections 4.2
    to 4.5).  Each call reads and writes only the regions it is handed: the
    element, the scratch region of [cbScratch] bytes and, for the encoder,
    the destination of [cbDst] bytes.  The element is constructed in place,
    so [SymCryptModElementCreate] returns the buffer it was given, which
    is what [SYMCRYPT_ASSERT( peRes != NULL )] expects. *)

Definition SymCryptModElementCreate (pbBuffer : pointer) (cbBuffer : Z) (pmMod : object)
  : M pointer :=
  fun w =>
    let old := load (heap w) pbBuffer cbBuffer in
    let new := take (Z.to_nat cbBuffer) (ModElementCreate_bytes pmMod old) in
    (pbBuffer, mkWorld (store (heap w) pbBuffer new) (trace w)).

Definition SymCryptModExp (pmMod peBase piExp : object) (nBitsExp flags : Z)
    (peDst pbScratch : pointer) (cbScratch : Z) : M unit :=
  fun w =>
    let cbElement := SymCryptSizeofModElementFromModulus pmMod in
    let '(dst, scr) :=
      ModExp_bytes pmMod peBase piExp nBitsExp flags
        (load (heap w) peDst cbElement) (load (heap w) pbScratch cbScratch) in
    let h1 := store (heap w) pbScratch (take (Z.to_nat cbScratch) scr) in
    let h2 := store h1 peDst (take (Z.to_nat cbElement) dst) in
    (tt, log (EvModExp nBitsExp flags (load h2 peDst cbElement)) (mkWorld h2 (trace w))).

Definition SymCryptModElementIsZero (pmMod : object) (peSrc : pointer) : M bool :=
  fun w =>
    (ModElementIsZero_bytes pmMod
       (load (heap w) peSrc (SymCryptSizeofModElementFromModulus pmMod)), w).

Definition SymCryptModElementGetValue (pmMod : object) (peSrc pbDst : pointer) (cbDst : Z)
    (format : SYMCRYPT_NUMBER_FORMAT) (pbScratch : pointer) (cbScratch : Z)
  : M SYMCRYPT_ERROR :=
  fun w =>
    let '(scError, out, scr) :=
      ModElementGetValue_bytes pmMod
        (load (heap w) peSrc (SymCryptSizeofModElementFromModulus pmMod))
        cbDst format (load (heap w) pbScratch cbScratch) in
    let h1 := store (heap w) pbScratch (take (Z.to_nat cbScratch) scr) in
    let h2 := store h1 pbDst (take (Z.to_nat cbDst) out) in
    (scError, log (EvGetValue cbDst format scError) (mkWorld h2 (trace w))).

(** *** SymCryptDhSecretAgreement *)

(** The exponent length handed to [SymCryptModExp] (dh.c, "Fix the bits of
    the exponent"). *)
Definition nBitsOfExp_of (pkPrivate : SYMCRYPT_DLKEY) (pDlgroup : SYMCRYPT_DLGROUP) : Z :=
  if fPrivateModQ pkPrivate then nBitsPriv pkPrivate else nBitsOfP pDlgroup.

(** "Objects and scratch space size calculation". *)
Definition cbScratch_of (pDlgroup : SYMCRYPT_DLGROUP) : Z :=
  to_SIZE_T
    (SymCryptSizeofModElementFromModulus (pmP pDlgroup) +
     Z.max (SYMCRYPT_SCRATCH_BYTES_FOR_MODEXP (nDigitsOfP pDlgroup))
           (SYMCRYPT_SCRATCH_BYTES_FOR_COMMON_MOD_OPERATIONS (nDigitsOfP pDlgroup))).

(** The function up to the [cleanup] label.  Every [goto cleanup] and the
    fall-through return the locals the label reads: [scError], [pbScratch]
    and [cbScratch]. *)
Definition SymCryptDhSecretAgreement_body
    (pkPrivate pkPublic : SYMCRYPT_DLKEY) (format : SYMCRYPT_NUMBER_FORMAT) (flags : Z)
    (pbAgreedSecret : pointer) (cbAgreedSecret : Z)
  : M (SYMCRYPT_ERROR * pointer * Z) :=
  (* Make sure we only specify the correct flags and that there is a private key *)
  if negb (flags =? 0) || negb (fHasPrivateKey pkPrivate) then
    mret (SYMCRYPT_INVALID_ARGUMENT, NULL, 0)
  (* Check that the group is the same for both keys *)
  else if negb (SymCryptDlgroupIsSame (pDlgroup pkPrivate) (pDlgroup pkPublic)) then
    mret (SYMCRYPT_INVALID_ARGUMENT, NULL, 0)
  else
    let pDlgroup := pDlgroup pkPrivate in
    (* Check the output buffer has the correct size *)
    if negb (cbAgreedSecret =? SymCryptDlkeySizeofPublicKey pkPrivate) then
      mret (SYMCRYPT_WRONG_BLOCK_SIZE, NULL, 0)
    else
      (* Objects and scratch space size calculation *)
      let cbModelement := SymCryptSizeofModElementFromModulus (pmP pDlgroup) in
      let cbScratch := cbScratch_of pDlgroup in
      (* Scratch space allocation *)
      pbScratch ← SymCryptCallbackAlloc cbScratch;
      if decide (pbScratch = NULL) then
        mret (SYMCRYPT_MEMORY_ALLOCATION_FAILURE, pbScratch, cbScratch)
      else
        (* Creating temporary *)
        let pbScratchInternal := pbScratch in
        let cbScratchInternal := cbScratch in
        peRes ← SymCryptModElementCreate pbScratchInternal cbModelement (pmP pDlgroup);
        let pbScratchInternal := ptr_add pbScratchInternal cbModelement in
        let cbScratchInternal := to_SIZE_T (cbScratchInternal - cbModelement) in
        (* Fix the bits of the exponent *)
        let nBitsOfExp := nBitsOfExp_of pkPrivate pDlgroup in
        (* Calculate the secret *)
        SymCryptModExp (pmP pDlgroup) (pePublicKey pkPublic) (piPrivateKey pkPrivate)
          nBitsOfExp 0 peRes pbScratchInternal cbScratchInternal;;
        (* Check if the result is zero *)
        isZero ← SymCryptModElementIsZero (pmP pDlgroup) peRes;
        if (isZero : bool) then
          mret (SYMCRYPT_INVALID_BLOB, pbScratch, cbScratch)
        else
          (* Output the result *)
          scError ← SymCryptModElementGetValue (pmP pDlgroup) peRes
                      pbAgreedSecret cbAgreedSecret format
                      pbScratchInternal cbScratchInternal;
          mret (scError, pbScratch, cbScratch).

(** The [cleanup] label. *)
Definition cleanup (pbScratch : pointer) (cbScratch : Z) : M unit :=
  if decide (pbScratch = NULL) then mret tt
  else SymCryptWipe pbScratch cbScratch;; SymCryptCallbackFree pbScratch.

Definition SymCryptDhSecretAgreement
    (pkPrivate pkPublic : SYMCRYPT_DLKEY) (format : SYMCRYPT_NUMBER_FORMAT) (flags : Z)
    (pbAgreedSecret : pointer) (cbAgreedSecret : Z)
  : M SYMCRYPT_ERROR :=
  locals ← SymCryptDhSecretAgreement_body pkPrivate pkPublic format flags
             pbAgreedSecret cbAgreedSecret;
  let '(scError, pbScratch, cbScratch) := locals in
  cleanup pbScratch cbScratch;;
  mret scError.

(** *** The stages of a validated call

    The memory after each library call of a call that passed validation
    and whose allocation succeeded, as functions of the caller's heap [h].
    The execution lemmas below relate them to the function. *)

Definition validated (pkPrivate pkPublic : SYMCRYPT_DLKEY) (flags cbAgreedSecret : Z) : bool :=
  (flags =? 0) && fHasPrivateKey pkPrivate
  && SymCryptDlgroupIsSame (pDlgroup pkPrivate) (pDlgroup pkPublic)
  && (cbAgreedSecret =? SymCryptDlkeySizeofPublicKey pkPrivate).

Definition scratch_block (h : gmap nat (list byte)) : nat := fresh (dom h).

Definition cbScratchInternal_of (G : SYMCRYPT_DLGROUP) : Z :=
  to_SIZE_T (cbScratch_of G - SymCryptSizeofModElementFromModulus (pmP G)).

Definition heap_allocated (G : SYMCRYPT_DLGROUP) (h : gmap nat (list byte))
  : gmap nat (list byte) :=
  <[scratch_block h :=
      alloc_contents (scratch_block h) <$> seq 0 (Z.to_nat (cbScratch_of G))]> h.

Definition heap_created (G : SYMCRYPT_DLGROUP) (h : gmap nat (list byte))
  : gmap nat (list byte) :=
  let cbModelement := SymCryptSizeofModElementFromModulus (pmP G) in
  let peRes := Ptr (scratch_block h) 0 in
  store (heap_allocated G h) peRes
    (take (Z.to_nat cbModelement)
       (ModElementCreate_bytes (pmP G) (load (heap_allocated G h) peRes cbModelement))).

Definition modexp_output (pkPrivate pkPublic : SYMCRYPT_DLKEY) (h : gmap nat (list byte))
  : list byte * list byte :=
  let G := pDlgroup pkPrivate in
  let cbModelement := SymCryptSizeofModElementFromModulus (pmP G) in
  ModExp_bytes (pmP G) (pePublicKey pkPublic) (piPrivateKey pkPrivate)
    (nBitsOfExp_of pkPrivate G) 0
    (load (heap_created G h) (Ptr (scratch_block h) 0) cbModelement)
    (load (heap_created G h) (Ptr (scratch_block h) (0 + cbModelement))
       (cbScratchInternal_of G)).

Definition heap_exponentiated (pkPrivate pkPublic : SYMCRYPT_DLKEY)
    (h : gmap nat (list byte)) : gmap nat (list byte) :=
  let G := pDlgroup pkPrivate in
  let cbModelement := SymCryptSizeofModElementFromModulus (pmP G) in
  let out := modexp_output pkPrivate pkPublic h in
  store
    (store (heap_created G h) (Ptr (scratch_block h) (0 + cbModelement))
       (take (Z.to_nat (cbScratchInternal_of G)) out.2))
    (Ptr (scratch_block h) 0) (take (Z.to_nat cbModelement) out.1).

(** The element [peRes] holds when [SymCryptModExp] returns. *)
Definition secret_element (pkPrivate pkPublic : SYMCRYPT_DLKEY) (h : gmap nat (list byte))
  : object :=
  load (heap_exponentiated pkPrivate pkPublic h) (Ptr (scratch_block h) 0)
    (SymCryptSizeofModElementFromModulus (pmP (pDlgroup pkPrivate))).

Definition getvalue_output (pkPrivate pkPublic : SYMCRYPT_DLKEY)
    (format : SYMCRYPT_NUMBER_FORMAT) (cbAgreedSecret : Z) (h : gmap nat (list byte))
  : SYMCRYPT_ERROR * list byte * list byte :=
  let G := pDlgroup pkPrivate in
  ModElementGetValue_bytes (pmP G) (secret_element pkPrivate pkPublic h)
    cbAgreedSecret format
    (load (heap_exponentiated pkPrivate pkPublic h)
       (Ptr (scratch_block h) (0 + SymCryptSizeofModElementFromModulus (pmP G)))
       (cbScratchInternal_of G)).

Definition heap_encoded (pkPrivate pkPublic : SYMCRYPT_DLKEY)
    (format : SYMCRYPT_NUMBER_FORMAT) (pbAgreedSecret : pointer) (cbAgreedSecret : Z)
    (h : gmap nat (list byte)) : gmap nat (list byte) :=
  let G := pDlgroup pkPrivate in
  let out := getvalue_output pkPrivate pkPublic format cbAgreedSecret h in
  store
    (store (heap_exponentiated pkPrivate pkPublic h)
       (Ptr (scratch_block h) (0 + SymCryptSizeofModElementFromModulus (pmP G)))
       (take (Z.to_nat (cbScratchInternal_of G)) out.2))
    pbAgreedSecret (take (Z.to_nat cbAgreedSecret) out.1.2).

(** The validation checks as a list in their order of precedence, each with
    the status of its failure, and the status of the first one violated.
    This follows the order the checks are described in; the theorems
    compare it with the function. *)
Definition validation_checks (pkPrivate pkPublic : SYMCRYPT_DLKEY) (flags cbAgreedSecret : Z)
  : list (bool * SYMCRYPT_ERROR) :=
  [ (negb (flags =? 0) || negb (fHasPrivateKey pkPrivate), SYMCRYPT_INVALID_ARGUMENT);
    (negb (SymCryptDlgroupIsSame (pDlgroup pkPrivate) (pDlgroup pkPublic)),
     SYMCRYPT_INVALID_ARGUMENT);
    (negb (cbAgreedSecret =? SymCryptDlkeySizeofPublicKey pkPrivate),
     SYMCRYPT_WRONG_BLOCK_SIZE) ].

Definition first_violation (checks : list (bool * SYMCRYPT_ERROR)) : option SYMCRYPT_ERROR :=
  snd <$> List.find fst checks.

(** The events of a call, after those already in the trace. *)
Definition events_of (w w' : World) (evs : list Event) : Prop :=
  trace w' = trace w ++ evs.

Definition block_size (h : gmap nat (list byte)) (b : nat) (n : nat) : Prop :=
  exists bs, h !! b = Some bs /\ length bs = n.

End Agreement.

(** ** What the agreement value assumes of the arithmetic layer *)

(** Modelled from the spec: [SymCryptModExp] and [SymCryptModElementGetValue]
    are not part of dh.c.  Section 4.3 of the spec gives the exponentiation
    as publicElement ^ privateExponent mod P, driven through as many
    square-and-multiply steps as the bit-length argument says; sections 4.5
    and 6 have the encoder serialise the element's value in the requested
    format and, on success, fill the destination.  The contract states this
    over the numbers that the opaque objects stand for. *)
Class ArithmeticContract `{Collaborators} : Type := {
  ModulusValue : object -> Z;
  IntValue : object -> Z;
  ModElementValue : object -> object -> Z;
  ModExp_correct :
    forall pm base e nBitsExp flags old scr,
      length old = Z.to_nat (SymCryptSizeofModElementFromModulus pm) ->
      0 < ModulusValue pm ->
      0 <= IntValue e < 2 ^ nBitsExp ->
      length (ModExp_bytes pm base e nBitsExp flags old scr).1 = length old
      /\ ModElementValue pm (ModExp_bytes pm base e nBitsExp flags old scr).1
         = ModElementValue pm base ^ IntValue e mod ModulusValue pm;
  GetValue_of_value :
    forall pm el1 el2 cbDst format scr1 scr2,
      length el1 = length el2 ->
      ModElementValue pm el1 = ModElementValue pm el2 ->
      (ModElementGetValue_bytes pm el1 cbDst format scr1).1
      = (ModElementGetValue_bytes pm el2 cbDst format scr2).1;
  GetValue_fills :
    forall pm el cbDst format scr,
      (ModElementGetValue_bytes pm el cbDst format scr).1.1 = SYMCRYPT_NO_ERROR ->
      length (ModElementGetValue_bytes pm el cbDst format scr).1.2 = Z.to_nat cbDst
}.

Section Counterparts.
Context `{ArithmeticContract}.

(** [k] is a key of the group [G] with private exponent [x], within the
    exponent length its flags declare, and public element [g ^ x mod P]. *)
Definition dh_key_of (G : SYMCRYPT_DLGROUP) (g x : Z) (k : SYMCRYPT_DLKEY) : Prop :=
  pDlgroup k = G
  /\ IntValue (piPrivateKey k) = x
  /\ 0 <= x < 2 ^ nBitsOfExp_of k G
  /\ ModElementValue (pmP G) (pePublicKey k) = g ^ x mod ModulusValue (pmP G).

(** The size computation stays within [SIZE_T]. *)
Definition scratch_fits (G : SYMCRYPT_DLGROUP) : Prop :=
  0 <= SymCryptSizeofModElementFromModulus (pmP G)
  /\ 0 <= Z.max (SYMCRYPT_SCRATCH_BYTES_FOR_MODEXP (nDigitsOfP G))
               (SYMCRYPT_SCRATCH_BYTES_FOR_COMMON_MOD_OPERATIONS (nDigitsOfP G))
  /\ SymCryptSizeofModElementFromModulus (pmP G)
     + Z.max (SYMCRYPT_SCRATCH_BYTES_FOR_MODEXP (nDigitsOfP G))
             (SYMCRYPT_SCRATCH_BYTES_FOR_COMMON_MOD_OPERATIONS (nDigitsOfP G))
     < SIZE_T_MODULUS.

(** [_Out_writes_( cb )]: [p] points to [cb] bytes of a live block. *)
Definition writable (h : gmap nat (list byte)) (p : pointer) (cb : Z) : Prop :=
  exists b ofs bs,
    p = Ptr b ofs /\ h !! b = Some bs
    /\ (Z.to_nat ofs + Z.to_nat cb <= length bs)%nat.

End Counterparts.

(** ** A reference arithmetic layer *)

(** Modelled from the spec: the multi-precision layer, the group predicate
    and the allocator are external collaborators of dh.c (spec sections 4.3,
    4.5 and 6).  This instance follows their description: objects hold
    little-endian numbers, exponentiation is square-and-multiply over exactly
    [nBitsExp] exponent bits, the zero test reads the element's value, and
    the encoder writes the value in the requested byte order or reports an
    unsupported format. *)
Module Reference.

Definition byte_of_Z (z : Z) : byte := default x00 (Byte.of_N (Z.to_N z)).

Fixpoint le_to_Z (bs : list byte) : Z :=
  match bs with
  | [] => 0
  | b :: rest => Z.of_N (Byte.to_N b) + 256 * le_to_Z rest
  end.

Fixpoint Z_to_le (n : nat) (z : Z) : list byte :=
  match n with
  | O => []
  | S k => byte_of_Z (z mod 256) :: Z_to_le k (z / 256)
  end.

(** Left-to-right square-and-multiply over the [n] low bits of [e]. *)
Fixpoint modexp_loop (P base e : Z) (n : nat) (acc : Z) : Z :=
  match n with
  | O => acc
  | S k =>
      let sq := (acc * acc) mod P in
      modexp_loop P base e k
        (if Z.testbit e (Z.of_nat k) then (sq * base) mod P else sq)
  end.

Definition modexp (P base e : Z) (nBitsExp : Z) : Z :=
  modexp_loop P base e (Z.to_nat nBitsExp) (1 mod P).

Definition SYMCRYPT_NUMBER_FORMAT_LSB_FIRST : Z := 1.
Definition SYMCRYPT_NUMBER_FORMAT_MSB_FIRST : Z := 2.

Definition group_eqb (g1 g2 : SYMCRYPT_DLGROUP) : bool :=
  (nBitsOfP g1 =? nBitsOfP g2) && (nDigitsOfP g1 =? nDigitsOfP g2)
  && bool_decide (Byte.to_N <$> pmP g1 = Byte.to_N <$> pmP g2).

Definition get_value (pm el : object) (cbDst : Z) (format : SYMCRYPT_NUMBER_FORMAT)
    (scr : list byte) : SYMCRYPT_ERROR * list byte * list byte :=
  if format =? SYMCRYPT_NUMBER_FORMAT_LSB_FIRST then
    (SYMCRYPT_NO_ERROR, Z_to_le (Z.to_nat cbDst) (le_to_Z el), el ++ scr)
  else if format =? SYMCRYPT_NUMBER_FORMAT_MSB_FIRST then
    (SYMCRYPT_NO_ERROR, reverse (Z_to_le (Z.to_nat cbDst) (le_to_Z el)), el ++ scr)
  else
    (SYMCRYPT_INVALID_ARGUMENT, [], scr).

#[export] Instance engine : Collaborators := {|
  SymCryptDlgroupIsSame := group_eqb;
  SymCryptDlkeySizeofPublicKey := fun k => Z.of_nat (length (pmP (pDlgroup k)));
  SymCryptSizeofModElementFromModulus := fun pm => Z.of_nat (length pm);
  SYMCRYPT_SCRATCH_BYTES_FOR_MODEXP := fun nDigits => 4 * nDigits + 8;
  SYMCRYPT_SCRATCH_BYTES_FOR_COMMON_MOD_OPERATIONS := fun nDigits => 2 * nDigits + 16;
  alloc_succeeds := fun _ nBytes => nBytes <=? 4096;
  alloc_contents := fun _ _ => xcd;
  ModElementCreate_bytes := fun _ old => old;
  ModExp_bytes := fun pm base e nBitsExp _ old scr =>
    (Z_to_le (length old) (modexp (le_to_Z pm) (le_to_Z base) (le_to_Z e) nBitsExp),
     e ++ scr);
  ModElementIsZero_bytes := fun _ el => le_to_Z el =? 0;
  ModElementGetValue_bytes := get_value
|}.

(** A group over P = 23 and two key pairs for the generator 5:
    a = 6 with A = 5^6 mod 23 = 8, and b = 15 with B = 5^15 mod 23 = 19. *)
Definition group23 : SYMCRYPT_DLGROUP := mkDlgroup 5 1 [x17].
Definition keyA : SYMCRYPT_DLKEY := mkDlkey true false 0 group23 [x08] [x06].
Definition keyB : SYMCRYPT_DLKEY := mkDlkey true true 4 group23 [x13] [x0f].
(** A public-only key, a key whose public element is zero, a key whose
    private exponent is zero, a key over another group and a key over a
    group too large for the allocator. *)
Definition keyPub : SYMCRYPT_DLKEY := mkDlkey false false 0 group23 [x13] [].
Definition keyZero : SYMCRYPT_DLKEY := mkDlkey true false 0 group23 [x00] [x06].
Definition keyExp0 : SYMCRYPT_DLKEY := mkDlkey true false 0 group23 [x08] [x00].
Definition group29 : SYMCRYPT_DLGROUP := mkDlgroup 5 1 [x1d].
Definition key29 : SYMCRYPT_DLKEY := mkDlkey true false 0 group29 [x08] [x06].
Definition groupHuge : SYMCRYPT_DLGROUP := mkDlgroup 5 2000 [x17].
Definition keyHuge : SYMCRYPT_DLKEY := mkDlkey true false 0 groupHuge [x08] [x06].

(** A caller's world: the destination buffer is block 0, one byte long. *)
Definition world0 : World := mkWorld {[ 0%nat := [xee] ]} [].
Definition dst0 : pointer := Ptr 0 0.

(** The events of the call of party B with A's public key. *)
Definition eventsBA : list Event :=
  [EvAlloc 19 (Ptr 1 0); EvModExp 4 0 [x02]; EvGetValue 1 2 SYMCRYPT_NO_ERROR;
   EvWipe (Ptr 1 0) 19; EvFree (Ptr 1 0) (replicate 19 x00)].

Definition eventsBA_lsb : list Event :=
  [EvAlloc 19 (Ptr 1 0); EvModExp 4 0 [x02]; EvGetValue 1 1 SYMCRYPT_NO_ERROR;
   EvWipe (Ptr 1 0) 19; EvFree (Ptr 1 0) (replicate 19 x00)].

(** The events of a call whose public element is zero. *)
Definition eventsZero : list Event :=
  [EvAlloc 19 (Ptr 1 0); EvModExp 5 0 [x00];
   EvWipe (Ptr 1 0) 19; EvFree (Ptr 1 0) (replicate 19 x00)].

(** The events of a call with a format the encoder does not know. *)
Definition eventsFormat : list Event :=
  [EvAlloc 19 (Ptr 1 0); EvModExp 5 0 [x02]; EvGetValue 1 7 SYMCRYPT_INVALID_ARGUMENT;
   EvWipe (Ptr 1 0) 19; EvFree (Ptr 1 0) (replicate 19 x00)].

End Reference.

(** ** The zero test and the shared secret *)

Section SharedSecret.
Context `{ArithmeticContract}.

(** Modelled from the spec: [SymCryptModElementIsZero] is not part of
    dh.c; by section 4.4 of the spec it tells whether the element is the
    additive identity.  Stated over the numbers the elements stand for. *)
Definition zero_test_decides_value : Prop :=
  forall pm el,
    length el = Z.to_nat (SymCryptSizeofModElementFromModulus pm) ->
    (ModElementIsZero_bytes pm el = true <-> ModElementValue pm el = 0).

(** The numbers of a call: P, Y and x of the comment at the head of dh.c,
    and S = Y^x mod P. *)
Definition modulus_value (pkPrivate : SYMCRYPT_DLKEY) : Z :=
  ModulusValue (pmP (pDlgroup pkPrivate)).

Definition public_value (pkPrivate pkPublic : SYMCRYPT_DLKEY) : Z :=
  ModElementValue (pmP (pDlgroup pkPrivate)) (pePublicKey pkPublic).

Definition private_value (pkPrivate : SYMCRYPT_DLKEY) : Z :=
  IntValue (piPrivateKey pkPrivate).

Definition shared_secret (pkPrivate pkPublic : SYMCRYPT_DLKEY) : Z :=
  public_value pkPrivate pkPublic ^ private_value pkPrivate mod modulus_value pkPrivate.

End SharedSecret.

(** Keys over the group of P = 23 whose public element is 1 and P - 1. *)
Module ReferenceKeys.
Definition keyOne : SYMCRYPT_DLKEY := mkDlkey true false 0 Reference.group23 [x01] [x06].
Definition keyMinusOne : SYMCRYPT_DLKEY :=
  mkDlkey true false 0 Reference.group23 [x16] [x06].
(** A key that carries the public element of [Reference.keyB] and nothing
    of its private part. *)
Definition keyBPublicOnly : SYMCRYPT_DLKEY :=
  mkDlkey false false 0 Reference.group23 [x13] [].
Definition eventsAB : list Event :=
  [EvAlloc 19 (Ptr 1 0); EvModExp 5 0 [x02]; EvGetValue 1 1 SYMCRYPT_NO_ERROR;
   EvWipe (Ptr 1 0) 19; EvFree (Ptr 1 0) (replicate 19 x00)].
Definition eventsAOne : list Event :=
  [EvAlloc 19 (Ptr 1 0); EvModExp 5 0 [x01]; EvGetValue 1 1 SYMCRYPT_NO_ERROR;
   EvWipe (Ptr 1 0) 19; EvFree (Ptr 1 0) (replicate 19 x00)].
End ReferenceKeys.

(** * Properties *)

(** ** Memory *)

Lemma splice_length (ofs : nat) (data bs : list byte) :
  length (splice ofs data bs) = length bs.
Proof.
  unfold splice. rewrite !length_app, !length_take, length_drop. lia.
Qed.

Lemma splice_zeros (n : nat) (bs : list byte) :
  length bs = n -> splice 0 (replicate n x00) bs = replicate n x00.
Proof.
  intros Hn. unfold splice. rewrite take_0, length_replicate. cbn [app].
  rewrite Nat.sub_0_r, Hn, take_ge by (rewrite length_replicate; lia).
  rewrite drop_ge by (cbn; lia). apply app_nil_r.
Qed.

Lemma splice_exact (data bs : list byte) :
  (length data <= length bs)%nat ->
  take (length data) (splice 0 data bs) = data.
Proof.
  intros Hn. unfold splice. rewrite take_0. cbn [app].
  rewrite Nat.sub_0_r, (take_ge data) by lia.
  by rewrite take_app_length.
Qed.

Lemma store_lookup_same h b ofs data :
  store h (Ptr b ofs) data !! b = splice (Z.to_nat ofs) data <$> h !! b.
Proof.
  unfold store. destruct (h !! b) as [bs|] eqn:E.
  - by rewrite lookup_insert_eq.
  - by rewrite E.
Qed.

Lemma store_lookup_ne h b ofs data b' :
  b ≠ b' -> store h (Ptr b ofs) data !! b' = h !! b'.
Proof.
  intros Hne. unfold store. destruct (h !! b); [|done].
  by rewrite lookup_insert_ne.
Qed.

Lemma delete_store_same h b ofs data :
  delete b (store h (Ptr b ofs) data) = delete b h.
Proof.
  unfold store. destruct (h !! b); [|done]. apply delete_insert_eq.
Qed.

Lemma delete_store_ne h b b' ofs data :
  b ≠ b' -> delete b (store h (Ptr b' ofs) data) = store (delete b h) (Ptr b' ofs) data.
Proof.
  intros Hne. unfold store. rewrite lookup_delete_ne by done.
  destruct (h !! b'); [|done]. by rewrite delete_insert_ne.
Qed.

Lemma store_block_size h p data b n :
  block_size h b n -> block_size (store h p data) b n.
Proof.
  intros (bs & Hb & Hn). destruct p as [|b' ofs]; [by exists bs|].
  destruct (decide (b' = b)) as [->|Hne].
  - exists (splice (Z.to_nat ofs) data bs). rewrite store_lookup_same, Hb.
    split; [done|]. by rewrite splice_length.
  - exists bs. by rewrite store_lookup_ne.
Qed.

Lemma store_zeros_lookup h b n :
  block_size h b n ->
  store h (Ptr b 0) (replicate n x00) !! b = Some (replicate n x00).
Proof.
  intros (bs & Hb & Hn). rewrite store_lookup_same, Hb. cbn.
  by rewrite splice_zeros.
Qed.

Lemma load_length h b ofs k n :
  block_size h b n ->
  (Z.to_nat ofs + Z.to_nat k <= n)%nat ->
  length (load h (Ptr b ofs) k) = Z.to_nat k.
Proof.
  intros (bs & Hb & Hn) Hle. unfold load. rewrite Hb, length_take, length_drop. lia.
Qed.

Lemma load_store_same h b ofs bs data k :
  h !! b = Some bs ->
  (Z.to_nat ofs + length data <= length bs)%nat ->
  Z.to_nat k = length data ->
  load (store h (Ptr b ofs) data) (Ptr b ofs) k = data.
Proof.
  intros Hb Hle Hk. unfold load. rewrite store_lookup_same, Hb. cbn [fmap option_fmap option_map].
  unfold splice. rewrite (take_ge data) by lia.
  rewrite drop_app_length' by (rewrite length_take; lia).
  rewrite Hk. by rewrite take_app_length.
Qed.

Lemma pow_mod_exchange (g a b P : Z) :
  0 < P -> 0 <= a -> 0 <= b ->
  (g ^ b mod P) ^ a mod P = (g ^ a mod P) ^ b mod P.
Proof.
  intros HP Ha Hb.
  rewrite <- !Zpower_mod by done. rewrite <- !Z.pow_mul_r by done.
  by rewrite Z.mul_comm.
Qed.

(** ** Execution of the function *)

Section Execution.
Context `{Collaborators}.

Implicit Types (pkPrivate pkPublic : SYMCRYPT_DLKEY) (w : World)
  (h : gmap nat (list byte)) (flags cbAgreedSecret : Z) (pbAgreedSecret : pointer).

Lemma scratch_block_fresh h : h !! scratch_block h = None.
Proof. unfold scratch_block. apply (not_elem_of_dom (D := gset nat)). apply is_fresh. Qed.

Lemma heap_allocated_size G h :
  block_size (heap_allocated G h) (scratch_block h) (Z.to_nat (cbScratch_of G)).
Proof.
  eexists. unfold heap_allocated. rewrite lookup_insert_eq. split; [done|].
  by rewrite length_fmap, length_seq.
Qed.

Lemma heap_exponentiated_size pkPrivate pkPublic h :
  block_size (heap_exponentiated pkPrivate pkPublic h) (scratch_block h)
    (Z.to_nat (cbScratch_of (pDlgroup pkPrivate))).
Proof.
  unfold heap_exponentiated, heap_created.
  do 3 apply store_block_size. apply heap_allocated_size.
Qed.

Lemma heap_encoded_size pkPrivate pkPublic format pbAgreedSecret cbAgreedSecret h :
  block_size (heap_encoded pkPrivate pkPublic format pbAgreedSecret cbAgreedSecret h)
    (scratch_block h) (Z.to_nat (cbScratch_of (pDlgroup pkPrivate))).
Proof.
  unfold heap_encoded. do 2 apply store_block_size. apply heap_exponentiated_size.
Qed.

Lemma heap_exponentiated_delete pkPrivate pkPublic h :
  delete (scratch_block h) (heap_exponentiated pkPrivate pkPublic h) = h.
Proof.
  unfold heap_exponentiated, heap_created, heap_allocated.
  rewrite !delete_store_same. apply delete_insert_id, scratch_block_fresh.
Qed.

Lemma run_rejected pkPrivate pkPublic format flags pbAgreedSecret cbAgreedSecret w :
  validated pkPrivate pkPublic flags cbAgreedSecret = false ->
  SymCryptDhSecretAgreement pkPrivate pkPublic format flags pbAgreedSecret cbAgreedSecret w
  = (if negb (flags =? 0) || negb (fHasPrivateKey pkPrivate) then SYMCRYPT_INVALID_ARGUMENT
     else if negb (SymCryptDlgroupIsSame (pDlgroup pkPrivate) (pDlgroup pkPublic))
          then SYMCRYPT_INVALID_ARGUMENT
          else SYMCRYPT_WRONG_BLOCK_SIZE, w).
Proof.
  unfold validated, SymCryptDhSecretAgreement, SymCryptDhSecretAgreement_body.
  intros Hv.
  destruct (flags =? 0), (fHasPrivateKey pkPrivate),
    (SymCryptDlgroupIsSame (pDlgroup pkPrivate) (pDlgroup pkPublic)),
    (cbAgreedSecret =? SymCryptDlkeySizeofPublicKey pkPrivate);
    try discriminate Hv; reflexivity.
Qed.

Lemma validated_true pkPrivate pkPublic flags cbAgreedSecret :
  validated pkPrivate pkPublic flags cbAgreedSecret = true ->
  (flags =? 0) = true /\ fHasPrivateKey pkPrivate = true
  /\ SymCryptDlgroupIsSame (pDlgroup pkPrivate) (pDlgroup pkPublic) = true
  /\ (cbAgreedSecret =? SymCryptDlkeySizeofPublicKey pkPrivate) = true.
Proof. unfold validated. rewrite !andb_true_iff. tauto. Qed.

Lemma run_alloc_failure pkPrivate pkPublic format flags pbAgreedSecret cbAgreedSecret w :
  validated pkPrivate pkPublic flags cbAgreedSecret = true ->
  alloc_succeeds (heap w) (cbScratch_of (pDlgroup pkPrivate)) = false ->
  SymCryptDhSecretAgreement pkPrivate pkPublic format flags pbAgreedSecret cbAgreedSecret w
  = (SYMCRYPT_MEMORY_ALLOCATION_FAILURE,
     mkWorld (heap w) (trace w ++ [EvAlloc (cbScratch_of (pDlgroup pkPrivate)) NULL])).
Proof.
  intros (Hf & Hp & Hs & Hc)%validated_true Ha.
  unfold SymCryptDhSecretAgreement, SymCryptDhSecretAgreement_body.
  rewrite Hf, Hp, Hs, Hc. cbn [negb orb].
  unfold mbind, M_bind, SymCryptCallbackAlloc. rewrite Ha. reflexivity.
Qed.

Lemma run_allocated pkPrivate pkPublic format flags pbAgreedSecret cbAgreedSecret w :
  validated pkPrivate pkPublic flags cbAgreedSecret = true ->
  alloc_succeeds (heap w) (cbScratch_of (pDlgroup pkPrivate)) = true ->
  let G := pDlgroup pkPrivate in
  let pbScratch := Ptr (scratch_block (heap w)) 0 in
  let secret := secret_element pkPrivate pkPublic (heap w) in
  let zeros := replicate (Z.to_nat (cbScratch_of G)) x00 in
  SymCryptDhSecretAgreement pkPrivate pkPublic format flags pbAgreedSecret cbAgreedSecret w
  = if ModElementIsZero_bytes (pmP G) secret then
      (SYMCRYPT_INVALID_BLOB,
       mkWorld (heap w)
         (trace w ++ [EvAlloc (cbScratch_of G) pbScratch;
                      EvModExp (nBitsOfExp_of pkPrivate G) 0 secret;
                      EvWipe pbScratch (cbScratch_of G);
                      EvFree pbScratch zeros]))
    else
      let scError := (getvalue_output pkPrivate pkPublic format cbAgreedSecret (heap w)).1.1 in
      (scError,
       mkWorld
         (delete (scratch_block (heap w))
            (heap_encoded pkPrivate pkPublic format pbAgreedSecret cbAgreedSecret (heap w)))
         (trace w ++ [EvAlloc (cbScratch_of G) pbScratch;
                      EvModExp (nBitsOfExp_of pkPrivate G) 0 secret;
                      EvGetValue cbAgreedSecret format scError;
                      EvWipe pbScratch (cbScratch_of G);
                      EvFree pbScratch zeros])).
Proof.
  intros (Hf & Hp & Hs & Hc)%validated_true Ha G pbScratch secret zeros.
  subst G pbScratch secret zeros.
  unfold SymCryptDhSecretAgreement, SymCryptDhSecretAgreement_body.
  rewrite Hf, Hp, Hs, Hc. cbn [negb orb]. cbv zeta.
  unfold mbind, M_bind, mret, M_ret, SymCryptCallbackAlloc. rewrite Ha.
  fold (scratch_block (heap w)).
  case_decide as Hn; [discriminate Hn|].
  unfold SymCryptModElementCreate, SymCryptModExp, SymCryptModElementIsZero, log.
  cbn [heap trace ptr_add].
  fold (heap_allocated (pDlgroup pkPrivate) (heap w)).
  fold (heap_created (pDlgroup pkPrivate) (heap w)).
  fold (cbScratchInternal_of (pDlgroup pkPrivate)).
  fold (modexp_output pkPrivate pkPublic (heap w)).
  pose proof (eq_refl : heap_exponentiated pkPrivate pkPublic (heap w) = _) as Hh.
  unfold heap_exponentiated at 2 in Hh.
  destruct (modexp_output pkPrivate pkPublic (heap w)) as [dst scr].
  cbn [fst snd] in Hh. rewrite <- Hh. clear Hh. cbn [heap trace].
  fold (secret_element pkPrivate pkPublic (heap w)).
  pose proof (heap_exponentiated_size pkPrivate pkPublic (heap w)) as Hsz.
  destruct (ModElementIsZero_bytes _ (secret_element pkPrivate pkPublic (heap w))).
  - cbv beta iota. unfold cleanup. case_decide as Hn'; [discriminate Hn'|].
    unfold mbind, M_bind, SymCryptWipe, SymCryptCallbackFree, log. cbn [heap trace].
    rewrite (store_zeros_lookup _ _ _ Hsz), delete_store_same, heap_exponentiated_delete.
    cbn [default]. rewrite <- !app_assoc. reflexivity.
  - unfold SymCryptModElementGetValue. cbn [heap trace].
    fold (secret_element pkPrivate pkPublic (heap w)).
    fold (getvalue_output pkPrivate pkPublic format cbAgreedSecret (heap w)).
    pose proof (heap_encoded_size pkPrivate pkPublic format pbAgreedSecret cbAgreedSecret
                  (heap w)) as Hsz'.
    pose proof (eq_refl : heap_encoded pkPrivate pkPublic format pbAgreedSecret cbAgreedSecret
                            (heap w) = _) as He.
    unfold heap_encoded at 2 in He.
    destruct (getvalue_output pkPrivate pkPublic format cbAgreedSecret (heap w))
      as [[scError out] scr'].
    cbn [fst snd] in He. rewrite <- He. clear He. cbn [fst snd].
    cbv beta iota. unfold log, cleanup. cbn [heap trace].
    case_decide as Hn'; [discriminate Hn'|].
    unfold mbind, M_bind, SymCryptWipe, SymCryptCallbackFree, log. cbn [heap trace].
    rewrite (store_zeros_lookup _ _ _ Hsz'), delete_store_same.
    cbn [default]. rewrite <- !app_assoc. reflexivity.
Qed.

(** Every call falls in one of four cases. *)
Ltac run_cases pkPrivate pkPublic flags cbAgreedSecret w :=
  let Hv := fresh "Hv" in
  let Ha := fresh "Ha" in
  let Hz := fresh "Hz" in
  destruct (validated pkPrivate pkPublic flags cbAgreedSecret) eqn:Hv;
  [ destruct (alloc_succeeds (heap w) (cbScratch_of (pDlgroup pkPrivate))) eqn:Ha;
    [ rewrite (run_allocated _ _ _ _ _ _ _ Hv Ha); cbv zeta;
      destruct (ModElementIsZero_bytes (pmP (pDlgroup pkPrivate))
                  (secret_element pkPrivate pkPublic (heap w))) eqn:Hz
    | rewrite (run_alloc_failure _ _ _ _ _ _ _ Hv Ha) ]
  | rewrite (run_rejected _ _ _ _ _ _ _ Hv) ].

Ltac events_inv Hev :=
  unfold events_of in Hev; cbn [snd fst trace] in Hev;
  first [ apply app_inv_head in Hev
        | rewrite <- (app_nil_r (trace _)) in Hev at 1; apply app_inv_head in Hev ];
  subst.

(** C4.  A call whose flags word is not zero, or whose private-bearing key
    has no private exponent, returns [SYMCRYPT_INVALID_ARGUMENT] and leaves
    the world as it found it: no allocation, no arithmetic, no event, and
    the heap (the destination buffer included) unchanged. *)
Theorem C4_bad_flags_or_no_private_key
    pkPrivate pkPublic format flags pbAgreedSecret cbAgreedSecret w :
  flags <> 0 \/ fHasPrivateKey pkPrivate = false ->
  SymCryptDhSecretAgreement pkPrivate pkPublic format flags pbAgreedSecret cbAgreedSecret w
  = (SYMCRYPT_INVALID_ARGUMENT, w).
Proof.
  intros Hbad.
  assert (negb (flags =? 0) || negb (fHasPrivateKey pkPrivate) = true) as Hc.
  { destruct Hbad as [Hf%Z.eqb_neq | Hp]; [rewrite Hf | rewrite Hp, orb_true_r]; done. }
  rewrite run_rejected, Hc; [done|].
  unfold validated. apply orb_true_iff in Hc as [Hc|Hc]; apply negb_true_iff in Hc;
    rewrite Hc; [done | by rewrite andb_false_r].
Qed.

(** C5.  A call whose two keys are not of the same group, as
    [SymCryptDlgroupIsSame] decides it, returns [SYMCRYPT_INVALID_ARGUMENT]
    and leaves the world as it found it; in particular nothing is
    allocated. *)
Theorem C5_different_groups
    pkPrivate pkPublic format flags pbAgreedSecret cbAgreedSecret w :
  SymCryptDlgroupIsSame (pDlgroup pkPrivate) (pDlgroup pkPublic) = false ->
  SymCryptDhSecretAgreement pkPrivate pkPublic format flags pbAgreedSecret cbAgreedSecret w
  = (SYMCRYPT_INVALID_ARGUMENT, w).
Proof.
  intros Hs. rewrite run_rejected, Hs.
  - by destruct (negb (flags =? 0) || negb (fHasPrivateKey pkPrivate)).
  - unfold validated. rewrite Hs. by rewrite andb_false_r.
Qed.

(** C6.  A call that passes the flags, private-key and group checks but
    whose destination length is not [SymCryptDlkeySizeofPublicKey] returns
    [SYMCRYPT_WRONG_BLOCK_SIZE], the status dh.c uses for a wrong output
    size, and leaves the world as it found it: no scratch memory is
    allocated. *)
Theorem C6_wrong_destination_length
    pkPrivate pkPublic format flags pbAgreedSecret cbAgreedSecret w :
  flags = 0 ->
  fHasPrivateKey pkPrivate = true ->
  SymCryptDlgroupIsSame (pDlgroup pkPrivate) (pDlgroup pkPublic) = true ->
  cbAgreedSecret <> SymCryptDlkeySizeofPublicKey pkPrivate ->
  SymCryptDhSecretAgreement pkPrivate pkPublic format flags pbAgreedSecret cbAgreedSecret w
  = (SYMCRYPT_WRONG_BLOCK_SIZE, w).
Proof.
  intros -> Hp Hs Hc%Z.eqb_neq. rewrite run_rejected, Hp, Hs; [done|].
  unfold validated. rewrite Hc. apply andb_false_r.
Qed.

(** C1.  The events of any call are of one of two shapes.  Either no block
    was obtained (no allocation was attempted, or it returned [NULL]) and
    then nothing is wiped and nothing is freed.  Or the first event is the
    allocation of a fresh block of [cb] bytes, the last two events are the
    wipe of [cb] bytes from the start of that block and its release, the
    block holds [cb] zero bytes when it is released, and nothing in between
    allocates, wipes or frees.  The second shape covers success, the zero
    result and a failing encoder alike. *)
Theorem C1_scratch_wiped_before_release
    pkPrivate pkPublic format flags pbAgreedSecret cbAgreedSecret w :
  let r := SymCryptDhSecretAgreement pkPrivate pkPublic format flags
             pbAgreedSecret cbAgreedSecret w in
  exists evs, events_of w r.2 evs /\
    ((* no block was obtained: nothing is wiped, nothing is freed *)
     ((forall cb p, In (EvAlloc cb p) evs -> p = NULL) /\
      (forall e, In e evs -> is_wipe_or_free e = false))
     \/
     (* the block obtained is wiped over its whole size, then freed *)
     (exists b cb mid,
        evs = EvAlloc cb (Ptr b 0) :: mid
              ++ [EvWipe (Ptr b 0) cb;
                  EvFree (Ptr b 0) (replicate (Z.to_nat cb) x00)] /\
        (forall e, In e mid -> is_alloc e = false /\ is_wipe_or_free e = false) /\
        heap w !! b = None /\ heap r.2 !! b = None)).
Proof.
  cbv zeta. run_cases pkPrivate pkPublic flags cbAgreedSecret w; cbn [snd heap trace].
  - eexists. split; [reflexivity|]. right.
    exists (scratch_block (heap w)), (cbScratch_of (pDlgroup pkPrivate)),
      [EvModExp (nBitsOfExp_of pkPrivate (pDlgroup pkPrivate)) 0
         (secret_element pkPrivate pkPublic (heap w))].
    split; [reflexivity|]. split; [|split; apply scratch_block_fresh].
    intros e [<-|[]]. done.
  - eexists. split; [reflexivity|]. right.
    exists (scratch_block (heap w)), (cbScratch_of (pDlgroup pkPrivate)),
      [EvModExp (nBitsOfExp_of pkPrivate (pDlgroup pkPrivate)) 0
         (secret_element pkPrivate pkPublic (heap w));
       EvGetValue cbAgreedSecret format
         (getvalue_output pkPrivate pkPublic format cbAgreedSecret (heap w)).1.1].
    split; [reflexivity|]. split; [|split; [apply scratch_block_fresh|apply lookup_delete_eq]].
    intros e [<-|[<-|[]]]; done.
  - eexists. split; [reflexivity|]. left. split.
    + intros cb p [[= _ <-]|[]]. done.
    + intros e [<-|[]]. done.
  - exists []. split; [unfold events_of; by rewrite app_nil_r|]. left. split; [intros ? ? []|intros ? []].
Qed.

(** C2.  Whenever a call reaches [SymCryptModExp], the exponent length it
    passes is the key's [nBitsPriv] if the key is flagged [fPrivateModQ],
    and the group's [nBitsOfP] otherwise.  The length is a function of that
    flag and those two fields alone: any call with a key that agrees on
    them passes the same length, whatever the exponents are. *)
Theorem C2_exponent_length_policy
    pkPrivate pkPublic format flags pbAgreedSecret cbAgreedSecret w evs nBitsExp fl res :
  events_of w
    (SymCryptDhSecretAgreement pkPrivate pkPublic format flags
       pbAgreedSecret cbAgreedSecret w).2 evs ->
  In (EvModExp nBitsExp fl res) evs ->
  nBitsExp = (if fPrivateModQ pkPrivate then nBitsPriv pkPrivate
              else nBitsOfP (pDlgroup pkPrivate))
  /\
  (* any other call whose key has the same flag and the same two lengths
     passes the same length, whatever its exponent is *)
  (forall pkPrivate' pkPublic' format' flags' pbAgreedSecret' cbAgreedSecret' w'
          evs' nBitsExp' fl' res',
     fPrivateModQ pkPrivate' = fPrivateModQ pkPrivate ->
     nBitsPriv pkPrivate' = nBitsPriv pkPrivate ->
     nBitsOfP (pDlgroup pkPrivate') = nBitsOfP (pDlgroup pkPrivate) ->
     events_of w'
       (SymCryptDhSecretAgreement pkPrivate' pkPublic' format' flags'
          pbAgreedSecret' cbAgreedSecret' w').2 evs' ->
     In (EvModExp nBitsExp' fl' res') evs' ->
     nBitsExp' = nBitsExp).
Proof.
  assert (forall pkPrivate pkPublic format flags pbAgreedSecret cbAgreedSecret w
                 evs nBitsExp fl res,
    events_of w
      (SymCryptDhSecretAgreement pkPrivate pkPublic format flags
         pbAgreedSecret cbAgreedSecret w).2 evs ->
    In (EvModExp nBitsExp fl res) evs ->
    nBitsExp = nBitsOfExp_of pkPrivate (pDlgroup pkPrivate)) as Hpol.
  { clear. intros pkPrivate pkPublic format flags pbAgreedSecret cbAgreedSecret w
      evs nBitsExp fl res.
    run_cases pkPrivate pkPublic flags cbAgreedSecret w; intros Hev Hin; events_inv Hev;
      cbn [In] in Hin; intuition congruence. }
  intros Hev Hin. pose proof (Hpol _ _ _ _ _ _ _ _ _ _ _ Hev Hin) as ->.
  split; [reflexivity|].
  intros pkPrivate' pkPublic' format' flags' pbAgreedSecret' cbAgreedSecret' w'
    evs' nBitsExp' fl' res' Hq Hb HP Hev' Hin'.
  rewrite (Hpol _ _ _ _ _ _ _ _ _ _ _ Hev' Hin').
  unfold nBitsOfExp_of. by rewrite Hq, Hb, HP.
Qed.

(** C3.  If the element that [SymCryptModExp] computed in a call is zero,
    the call returns [SYMCRYPT_INVALID_BLOB], the encoder is never called,
    and the heap, hence the destination buffer, is as it was before the
    call. *)
Theorem C3_zero_secret_rejected
    pkPrivate pkPublic format flags pbAgreedSecret cbAgreedSecret w evs nBitsExp fl res :
  let r := SymCryptDhSecretAgreement pkPrivate pkPublic format flags
             pbAgreedSecret cbAgreedSecret w in
  events_of w r.2 evs ->
  In (EvModExp nBitsExp fl res) evs ->
  ModElementIsZero_bytes (pmP (pDlgroup pkPrivate)) res = true ->
  r.1 = SYMCRYPT_INVALID_BLOB
  /\ (forall e, In e evs -> is_get_value e = false)
  /\ heap r.2 = heap w
  /\ load (heap r.2) pbAgreedSecret cbAgreedSecret
     = load (heap w) pbAgreedSecret cbAgreedSecret.
Proof.
  cbv zeta. run_cases pkPrivate pkPublic flags cbAgreedSecret w; intros Hev Hin Hzero;
    events_inv Hev; cbn [In] in Hin; cbn [fst snd heap].
  - split; [done|]. split; [|done]. intros e Hin'. cbn [In] in Hin'.
    intuition (subst; done).
  - destruct Hin as [|[[= _ _ <-]|[|[|[|[]]]]]]; try discriminate. congruence.
  - intuition discriminate.
  - destruct Hin.
Qed.

(** C7.  A call that passes validation, and whose size computation stays
    within [SIZE_T], makes exactly one allocation request, for the size of
    one modular element plus the larger of the two scratch requirements.
    If that request fails, the call returns
    [SYMCRYPT_MEMORY_ALLOCATION_FAILURE], the heap is unchanged and the
    request is the only event. *)
Theorem C7_single_allocation_of_computed_size
    pkPrivate pkPublic format flags pbAgreedSecret cbAgreedSecret w :
  let G := pDlgroup pkPrivate in
  let cbModelement := SymCryptSizeofModElementFromModulus (pmP G) in
  let cbWork := Z.max (SYMCRYPT_SCRATCH_BYTES_FOR_MODEXP (nDigitsOfP G))
                      (SYMCRYPT_SCRATCH_BYTES_FOR_COMMON_MOD_OPERATIONS (nDigitsOfP G)) in
  let r := SymCryptDhSecretAgreement pkPrivate pkPublic format flags
             pbAgreedSecret cbAgreedSecret w in
  flags = 0 ->
  fHasPrivateKey pkPrivate = true ->
  SymCryptDlgroupIsSame (pDlgroup pkPrivate) (pDlgroup pkPublic) = true ->
  cbAgreedSecret = SymCryptDlkeySizeofPublicKey pkPrivate ->
  0 <= cbModelement + cbWork < SIZE_T_MODULUS ->
  exists evs p,
    events_of w r.2 evs
    /\ List.filter is_alloc evs = [EvAlloc (cbModelement + cbWork) p]
    /\ (p = NULL <-> alloc_succeeds (heap w) (cbModelement + cbWork) = false)
    /\ (p = NULL ->
        r.1 = SYMCRYPT_MEMORY_ALLOCATION_FAILURE
        /\ heap r.2 = heap w
        /\ evs = [EvAlloc (cbModelement + cbWork) NULL]).
Proof.
  intros G cbModelement cbWork r -> Hp Hs -> Hfit.
  assert (cbScratch_of G = cbModelement + cbWork) as Hcb.
  { unfold cbScratch_of, to_SIZE_T. fold cbModelement cbWork. by apply Z.mod_small. }
  assert (validated pkPrivate pkPublic 0 (SymCryptDlkeySizeofPublicKey pkPrivate) = true)
    as Hv.
  { unfold validated. by rewrite Hp, Hs, !Z.eqb_refl. }
  subst r. fold G in Hcb.
  destruct (alloc_succeeds (heap w) (cbScratch_of G)) eqn:Ha.
  - pose proof (run_allocated _ _ format _ pbAgreedSecret _ _ Hv Ha) as Hrun.
    cbv zeta in Hrun. fold G in Hrun. rewrite Hrun. rewrite <- Hcb, Ha.
    destruct (ModElementIsZero_bytes _ _); cbn [fst snd heap trace];
      eexists _, (Ptr (scratch_block (heap w)) 0); (split; [reflexivity|]);
      (split; [reflexivity|]); split; try split; intros; discriminate.
  - rewrite (run_alloc_failure _ _ _ _ _ _ _ Hv Ha). fold G. rewrite <- Hcb, Ha.
    cbn [fst snd heap trace]. eexists _, NULL. split; [reflexivity|]. done.
Qed.

(** C9.  If [SymCryptModElementGetValue] reports a status other than
    [SYMCRYPT_NO_ERROR] in a call, the call returns that very status, and
    the encoder's event is followed by the wipe of the whole scratch block
    and its release. *)
Theorem C9_encoding_status_returned_verbatim
    pkPrivate pkPublic format flags pbAgreedSecret cbAgreedSecret w evs cbDst fmt scError :
  let r := SymCryptDhSecretAgreement pkPrivate pkPublic format flags
             pbAgreedSecret cbAgreedSecret w in
  events_of w r.2 evs ->
  In (EvGetValue cbDst fmt scError) evs ->
  scError <> SYMCRYPT_NO_ERROR ->
  r.1 = scError
  /\ exists b cbScratch pre,
       evs = pre ++ [EvGetValue cbDst fmt scError;
                     EvWipe (Ptr b 0) cbScratch;
                     EvFree (Ptr b 0) (replicate (Z.to_nat cbScratch) x00)]
       /\ heap r.2 !! b = None.
Proof.
  cbv zeta. run_cases pkPrivate pkPublic flags cbAgreedSecret w; intros Hev Hin Hne;
    events_inv Hev; cbn [In] in Hin; cbn [fst snd heap].
  - intuition discriminate.
  - destruct Hin as [|[|[[= <- <- <-]|[|[|[]]]]]]; try discriminate.
    split; [reflexivity|].
    exists (scratch_block (heap w)), (cbScratch_of (pDlgroup pkPrivate)),
      [EvAlloc (cbScratch_of (pDlgroup pkPrivate)) (Ptr (scratch_block (heap w)) 0);
       EvModExp (nBitsOfExp_of pkPrivate (pDlgroup pkPrivate)) 0
         (secret_element pkPrivate pkPublic (heap w))].
    split; [reflexivity|]. apply lookup_delete_eq.
  - intuition discriminate.
  - destruct Hin.
Qed.

(** C10.  The status of a rejected call is that of the first violated
    check in the order flags and private key, group, destination length,
    and the world is untouched.  So a call with bad flags or without a
    private exponent returns [SYMCRYPT_INVALID_ARGUMENT], never
    [SYMCRYPT_WRONG_BLOCK_SIZE], whatever else is wrong with it. *)
Theorem C10_validation_precedence
    pkPrivate pkPublic format flags pbAgreedSecret cbAgreedSecret w scError :
  first_violation (validation_checks pkPrivate pkPublic flags cbAgreedSecret) = Some scError ->
  SymCryptDhSecretAgreement pkPrivate pkPublic format flags pbAgreedSecret cbAgreedSecret w
  = (scError, w)
  /\ (flags <> 0 \/ fHasPrivateKey pkPrivate = false ->
      scError = SYMCRYPT_INVALID_ARGUMENT /\ scError <> SYMCRYPT_WRONG_BLOCK_SIZE).
Proof.
  unfold first_violation, validation_checks. cbn [List.find fst].
  intros Hfirst. split.
  - rewrite run_rejected.
    + destruct (negb (flags =? 0) || negb (fHasPrivateKey pkPrivate));
        [by injection Hfirst as <-|].
      destruct (negb (SymCryptDlgroupIsSame _ _)); [by injection Hfirst as <-|].
      destruct (negb (cbAgreedSecret =? _)); [by injection Hfirst as <-|discriminate].
    + unfold validated.
      destruct (flags =? 0), (fHasPrivateKey pkPrivate), (SymCryptDlgroupIsSame _ _),
        (cbAgreedSecret =? _); try reflexivity; discriminate Hfirst.
  - intros Hbad.
    assert (negb (flags =? 0) || negb (fHasPrivateKey pkPrivate) = true) as Hc.
    { destruct Hbad as [Hf%Z.eqb_neq | Hp]; [rewrite Hf | rewrite Hp, orb_true_r]; done. }
    rewrite Hc in Hfirst. by injection Hfirst as <-.
Qed.
End Execution.

(** ** The agreed value *)

Section Commutes.
Context `{ArithmeticContract}.

Lemma secret_element_correct G pkPrivate pkPublic h :
  pDlgroup pkPrivate = G ->
  scratch_fits G ->
  0 < ModulusValue (pmP G) ->
  0 <= IntValue (piPrivateKey pkPrivate) < 2 ^ nBitsOfExp_of pkPrivate G ->
  length (secret_element pkPrivate pkPublic h)
  = Z.to_nat (SymCryptSizeofModElementFromModulus (pmP G))
  /\ ModElementValue (pmP G) (secret_element pkPrivate pkPublic h)
     = ModElementValue (pmP G) (pePublicKey pkPublic) ^ IntValue (piPrivateKey pkPrivate)
       mod ModulusValue (pmP G).
Proof.
  intros <- (Hel & Hwork & Hfit) HP He.
  set (G := pDlgroup pkPrivate) in *.
  assert (Z.to_nat (SymCryptSizeofModElementFromModulus (pmP G))
          <= Z.to_nat (cbScratch_of G))%nat as Hroom.
  { unfold cbScratch_of, to_SIZE_T. rewrite Z.mod_small by lia. lia. }
  assert (block_size (heap_created G h) (scratch_block h) (Z.to_nat (cbScratch_of G)))
    as Hcreated.
  { unfold heap_created. apply store_block_size, heap_allocated_size. }
  pose proof (load_length _ _ 0 (SymCryptSizeofModElementFromModulus (pmP G)) _ Hcreated)
    as Hold.
  specialize (Hold ltac:(lia)).
  pose proof (ModExp_correct (pmP G) (pePublicKey pkPublic) (piPrivateKey pkPrivate)
                (nBitsOfExp_of pkPrivate G) 0 _
                (load (heap_created G h)
                   (Ptr (scratch_block h) (0 + SymCryptSizeofModElementFromModulus (pmP G)))
                   (cbScratchInternal_of G))
                Hold HP He) as [Hlen Hval].
  change (ModExp_bytes _ _ _ _ _ _ _) with (modexp_output pkPrivate pkPublic h) in Hlen, Hval.
  rewrite Hold in Hlen.
  assert (secret_element pkPrivate pkPublic h = (modexp_output pkPrivate pkPublic h).1)
    as ->; [|done].
  unfold secret_element, heap_exponentiated. fold G.
  rewrite (take_ge (modexp_output pkPrivate pkPublic h).1) by lia.
  edestruct (store_block_size (heap_created G h)
               (Ptr (scratch_block h) (0 + SymCryptSizeofModElementFromModulus (pmP G)))
               (take (Z.to_nat (cbScratchInternal_of G)) (modexp_output pkPrivate pkPublic h).2)
               _ _ Hcreated) as (bs & Hbs & Hn).
  apply (load_store_same _ _ _ bs); [done| |done]. 
  change (Z.to_nat 0) with 0%nat. lia.
Qed.

Lemma heap_encoded_delete pkPrivate pkPublic format b ofs cbAgreedSecret h :
  b ≠ scratch_block h ->
  delete (scratch_block h)
    (heap_encoded pkPrivate pkPublic format (Ptr b ofs) cbAgreedSecret h)
  = store h (Ptr b ofs)
      (take (Z.to_nat cbAgreedSecret)
         (getvalue_output pkPrivate pkPublic format cbAgreedSecret h).1.2).
Proof.
  intros Hne. unfold heap_encoded.
  rewrite delete_store_ne by done.
  by rewrite delete_store_same, heap_exponentiated_delete.
Qed.

Lemma agreement_output pkPrivate pkPublic format flags pbAgreedSecret cbAgreedSecret w :
  let r := SymCryptDhSecretAgreement pkPrivate pkPublic format flags
             pbAgreedSecret cbAgreedSecret w in
  r.1 = SYMCRYPT_NO_ERROR ->
  writable (heap w) pbAgreedSecret cbAgreedSecret ->
  (getvalue_output pkPrivate pkPublic format cbAgreedSecret (heap w)).1.1 = SYMCRYPT_NO_ERROR
  /\ load (heap r.2) pbAgreedSecret cbAgreedSecret
     = (getvalue_output pkPrivate pkPublic format cbAgreedSecret (heap w)).1.2.
Proof.
  cbv zeta.
  destruct (validated pkPrivate pkPublic flags cbAgreedSecret) eqn:Hv.
  2:{ rewrite (run_rejected _ _ _ _ _ _ _ Hv). cbn [fst].
      repeat match goal with |- context [if ?c then _ else _] => destruct c end;
        discriminate. }
  destruct (alloc_succeeds (heap w) (cbScratch_of (pDlgroup pkPrivate))) eqn:Ha.
  2:{ rewrite (run_alloc_failure _ _ _ _ _ _ _ Hv Ha). discriminate. }
  rewrite (run_allocated _ _ _ _ _ _ _ Hv Ha). cbv zeta.
  destruct (ModElementIsZero_bytes _ _); [discriminate|].
  cbn [fst snd heap]. intros Hok (b & ofs & bs & -> & Hb & Hroom).
  split; [done|].
  assert (b ≠ scratch_block (heap w)) as Hne.
  { intros ->. rewrite scratch_block_fresh in Hb. discriminate. }
  rewrite heap_encoded_delete by done.
  pose proof (GetValue_fills _ _ _ _ _ Hok) as Hlen.
  change (ModElementGetValue_bytes _ _ _ _ _)
    with (getvalue_output pkPrivate pkPublic format cbAgreedSecret (heap w)) in Hlen.
  rewrite take_ge by lia.
  apply (load_store_same _ _ _ bs); [done|lia|done].
Qed.

(** C8.  Over an arithmetic layer that meets the contract: let [kA] and
    [kB] be keys of one group with private exponents [a] and [b] and public
    elements [g ^ a mod P] and [g ^ b mod P].  If the agreement of A's
    private key with B's public key and the agreement of B's private key
    with A's public key both succeed, with the same format and the same
    destination length, the two destination buffers hold the same bytes. *)
Theorem C8_agreement_commutes
    G g a b kA kB format cbAgreedSecret flagsA pbA wA flagsB pbB wB :
  let rA := SymCryptDhSecretAgreement kA kB format flagsA pbA cbAgreedSecret wA in
  let rB := SymCryptDhSecretAgreement kB kA format flagsB pbB cbAgreedSecret wB in
  0 < ModulusValue (pmP G) ->
  scratch_fits G ->
  dh_key_of G g a kA ->
  dh_key_of G g b kB ->
  writable (heap wA) pbA cbAgreedSecret ->
  writable (heap wB) pbB cbAgreedSecret ->
  rA.1 = SYMCRYPT_NO_ERROR ->
  rB.1 = SYMCRYPT_NO_ERROR ->
  load (heap rA.2) pbA cbAgreedSecret = load (heap rB.2) pbB cbAgreedSecret.
Proof.
  intros rA rB HP Hfit (HGA & HxA & HbA & HpubA) (HGB & HxB & HbB & HpubB)
    HwA HwB HokA HokB.
  subst rA rB.
  destruct (agreement_output _ _ _ _ _ _ _ HokA HwA) as [_ ->].
  destruct (agreement_output _ _ _ _ _ _ _ HokB HwB) as [_ ->].
  rewrite <- HxA in HbA. rewrite <- HxB in HbB.
  destruct (secret_element_correct G kA kB (heap wA) HGA Hfit HP HbA) as [HlenA HvalA].
  destruct (secret_element_correct G kB kA (heap wB) HGB Hfit HP HbB) as [HlenB HvalB].
  unfold getvalue_output. rewrite HGA, HGB.
  f_equal. apply GetValue_of_value; [congruence|].
  rewrite HvalA, HvalB, HpubA, HpubB, HxA, HxB.
  rewrite HxA in HbA. rewrite HxB in HbB.
  apply pow_mod_exchange; lia.
Qed.
End Commutes.

(** ** The reference arithmetic layer meets the contract *)

Module ReferenceFacts.
Import Reference.

Lemma byte_of_Z_value (z : Z) :
  0 <= z < 256 -> Z.of_N (Byte.to_N (byte_of_Z z)) = z.
Proof.
  intros Hz. unfold byte_of_Z.
  destruct (Byte.of_N (Z.to_N z)) as [y|] eqn:E.
  - apply Byte.to_of_N in E. cbn [from_option id]. rewrite E. lia.
  - apply Byte.of_N_None_iff in E. lia.
Qed.

Lemma le_to_Z_range (bs : list byte) : 0 <= le_to_Z bs < 256 ^ Z.of_nat (length bs).
Proof.
  induction bs as [|x bs IH]; [cbn; lia|].
  cbn [le_to_Z length]. rewrite Nat2Z.inj_succ, Z.pow_succ_r by lia.
  pose proof (Byte.to_N_bounded x). lia.
Qed.

Lemma le_to_Z_Z_to_le (n : nat) (z : Z) :
  le_to_Z (Z_to_le n z) = z mod 256 ^ Z.of_nat n.
Proof.
  revert z. induction n as [|n IH]; intros z.
  - cbn. by rewrite Z.mod_1_r.
  - cbn [Z_to_le le_to_Z]. rewrite IH, byte_of_Z_value by (apply Z.mod_pos_bound; lia).
    rewrite Nat2Z.inj_succ, Z.pow_succ_r by lia.
    rewrite Z.rem_mul_r by lia. reflexivity.
Qed.

Lemma Z_to_le_length (n : nat) (z : Z) : length (Z_to_le n z) = n.
Proof. revert z. induction n as [|n IH]; intros z; cbn; [done|by rewrite IH]. Qed.

Lemma pow_mul_mod_congr (x y k c P : Z) :
  0 < P -> x mod P = y mod P -> (x ^ k * c) mod P = (y ^ k * c) mod P.
Proof.
  intros HP Hxy.
  rewrite <- (Z.mul_mod_idemp_l (x ^ k)), <- (Z.mul_mod_idemp_l (y ^ k)) by lia.
  rewrite (Zpower_mod x), (Zpower_mod y) by lia. by rewrite Hxy.
Qed.

(** The loop invariant of square-and-multiply: with [n] bits left, the
    accumulator still has to be squared [n] times and multiplied by the
    base raised to the low [n] bits of the exponent. *)
Lemma modexp_loop_spec (P base e : Z) (n : nat) (acc : Z) :
  0 < P -> acc mod P = acc ->
  modexp_loop P base e n acc
  = (acc ^ (2 ^ Z.of_nat n) * base ^ (e mod 2 ^ Z.of_nat n)) mod P.
Proof.
  intros HP. revert acc. induction n as [|n IH]; intros acc Hacc.
  - cbn [modexp_loop]. change (2 ^ Z.of_nat 0) with 1.
    by rewrite Z.mod_1_r, Z.pow_1_r, Z.pow_0_r, Z.mul_1_r.
  - cbn [modexp_loop].
    assert (0 < 2 ^ Z.of_nat n) as Hpow by (apply Z.pow_pos_nonneg; lia).
    assert (0 <= e mod 2 ^ Z.of_nat n) as Hlow by (apply Z.mod_pos_bound; lia).
    rewrite IH by (destruct (Z.testbit e (Z.of_nat n)); apply Z.mod_mod; lia).
    rewrite Nat2Z.inj_succ, Z.pow_succ_r by lia.
    rewrite (Z.mul_comm 2 (2 ^ Z.of_nat n)).
    rewrite (Z.rem_mul_r e (2 ^ Z.of_nat n) 2) by lia.
    rewrite <- (Z.testbit_spec' e (Z.of_nat n)) by lia.
    rewrite Z.pow_mul_r, Z.pow_2_r by lia.
    destruct (Z.testbit e (Z.of_nat n)); cbn [Z.b2z].
    + rewrite (pow_mul_mod_congr _ (acc * acc * base)); [|done|].
      2:{ by rewrite Z.mod_mod, Z.mul_mod_idemp_l by lia. }
      f_equal. rewrite Z.mul_1_r, Z.pow_add_r, !Z.pow_mul_l by lia. lia.
    + rewrite (pow_mul_mod_congr _ (acc * acc)); [|done|by rewrite Z.mod_mod by lia].
      f_equal. rewrite Z.mul_0_r, Z.add_0_r, Z.pow_mul_l. lia.
Qed.

Lemma modexp_spec (P base e nBitsExp : Z) :
  0 < P -> 0 <= e < 2 ^ nBitsExp ->
  modexp P base e nBitsExp = base ^ e mod P.
Proof.
  intros HP He. unfold modexp.
  assert (0 <= nBitsExp) as Hn.
  { destruct (Z.le_gt_cases 0 nBitsExp) as [|Hneg]; [done|].
    rewrite Z.pow_neg_r in He by done. lia. }
  rewrite modexp_loop_spec by (done || (apply Z.mod_mod; lia)).
  rewrite Z2Nat.id by done. rewrite (Z.mod_small e) by done.
  rewrite <- Z.mul_mod_idemp_l, <- Zpower_mod by lia.
  rewrite Z.pow_1_l by (apply Z.pow_nonneg; lia).
  rewrite Z.mul_mod_idemp_l by lia. f_equal. lia.
Qed.


#[export] Instance contract : ArithmeticContract (H := engine).
Proof.
  refine {| ModulusValue := le_to_Z;
            IntValue := le_to_Z;
            ModElementValue := fun _ el => le_to_Z el |}.
  - intros pm base e nBitsExp flags old scr Hold HP He. cbn [ModExp_bytes engine fst].
    split; [apply Z_to_le_length|].
    rewrite le_to_Z_Z_to_le, modexp_spec by done.
    apply Z.mod_small.
    pose proof (Z.mod_pos_bound (le_to_Z base ^ le_to_Z e) (le_to_Z pm) HP).
    pose proof (le_to_Z_range pm) as Hpm.
    cbn [SymCryptSizeofModElementFromModulus engine] in Hold.
    rewrite Hold, Nat2Z.id. lia.
  - intros pm el1 el2 cbDst format scr1 scr2 _ Hval.
    cbn [ModElementGetValue_bytes engine]. unfold get_value. rewrite Hval.
    by repeat case_match.
  - intros pm el cbDst format scr. cbn [ModElementGetValue_bytes engine].
    unfold get_value. repeat case_match; cbn [fst snd]; intros Hst;
      rewrite ?length_reverse, ?Z_to_le_length; done.
Defined.

End ReferenceFacts.

(** ** Concrete calls *)

Module Examples.
Import Reference ReferenceFacts.

(** Both parties obtain 2 = 19^6 mod 23 = 8^15 mod 23. *)
Example agreement_of_A :
  let r := SymCryptDhSecretAgreement keyA keyB 1 0 dst0 1 world0 in
  r.1 = SYMCRYPT_NO_ERROR /\ load (heap r.2) dst0 1 = [x02]
  /\ map_to_list (heap r.2) = [(0%nat, [x02])].
Proof. vm_compute. repeat split. Qed.

Example agreement_of_B :
  let r := SymCryptDhSecretAgreement keyB keyA 1 0 dst0 1 world0 in
  r.1 = SYMCRYPT_NO_ERROR /\ load (heap r.2) dst0 1 = [x02]
  /\ trace r.2 = eventsBA_lsb.
Proof. vm_compute. repeat split. Qed.

(** The zero test is on the result, not on the public element: a zero
    public element with a zero exponent gives 1. *)
Example zero_base_zero_exponent :
  let r := SymCryptDhSecretAgreement keyExp0 keyZero 1 0 dst0 1 world0 in
  r.1 = SYMCRYPT_NO_ERROR /\ load (heap r.2) dst0 1 = [x01].
Proof. vm_compute. repeat split. Qed.

Example allocation_failure :
  SymCryptDhSecretAgreement keyHuge keyHuge 1 0 dst0 1 world0
  = (SYMCRYPT_MEMORY_ALLOCATION_FAILURE, mkWorld (heap world0) [EvAlloc 8009 NULL]).
Proof. reflexivity. Qed.

Example no_private_key :
  SymCryptDhSecretAgreement keyPub keyB 1 0 dst0 1 world0
  = (SYMCRYPT_INVALID_ARGUMENT, world0).
Proof. reflexivity. Qed.

Lemma C4_example :
  SymCryptDhSecretAgreement keyA keyB 1 1 dst0 1 world0
  = (SYMCRYPT_INVALID_ARGUMENT, world0).
Proof. apply C4_bad_flags_or_no_private_key. left. lia. Defined.

Lemma C5_example :
  SymCryptDhSecretAgreement keyA key29 1 0 dst0 1 world0
  = (SYMCRYPT_INVALID_ARGUMENT, world0).
Proof. apply C5_different_groups. reflexivity. Defined.

Lemma C6_example :
  SymCryptDhSecretAgreement keyA keyB 1 0 dst0 2 world0
  = (SYMCRYPT_WRONG_BLOCK_SIZE, world0).
Proof.
  apply C6_wrong_destination_length; [reflexivity|reflexivity|reflexivity|].
  vm_compute. discriminate.
Defined.

Lemma C2_example :
  In (EvModExp 4 0 [x02]) eventsBA /\ 4 = nBitsPriv keyB.
Proof.
  split; [right; left; reflexivity|].
  apply (C2_exponent_length_policy keyB keyA 2 0 dst0 1 world0 eventsBA 4 0 [x02]).
  - vm_compute. reflexivity.
  - right. left. reflexivity.
Defined.

Lemma C3_example :
  (SymCryptDhSecretAgreement keyA keyZero 2 0 dst0 1 world0).1 = SYMCRYPT_INVALID_BLOB
  /\ load (heap (SymCryptDhSecretAgreement keyA keyZero 2 0 dst0 1 world0).2) dst0 1
     = [xee].
Proof.
  destruct (C3_zero_secret_rejected keyA keyZero 2 0 dst0 1 world0 eventsZero 5 0 [x00])
    as (Hst & _ & _ & Hdst).
  - vm_compute. reflexivity.
  - right. left. reflexivity.
  - reflexivity.
  - split; [exact Hst|]. rewrite Hdst. reflexivity.
Defined.

Lemma C7_example :
  exists evs p,
    events_of world0 (SymCryptDhSecretAgreement keyA keyB 1 0 dst0 1 world0).2 evs
    /\ List.filter is_alloc evs = [EvAlloc 19 p].
Proof.
  destruct (C7_single_allocation_of_computed_size keyA keyB 1 0 dst0 1 world0)
    as (evs & p & Hev & Halloc & _); try reflexivity.
  - vm_compute. split; [discriminate|reflexivity].
  - exists evs, p. split; [exact Hev|exact Halloc].
Defined.

Lemma C9_example :
  (SymCryptDhSecretAgreement keyA keyB 7 0 dst0 1 world0).1 = SYMCRYPT_INVALID_ARGUMENT.
Proof.
  apply (C9_encoding_status_returned_verbatim keyA keyB 7 0 dst0 1 world0 eventsFormat
           1 7 SYMCRYPT_INVALID_ARGUMENT).
  - vm_compute. reflexivity.
  - right. right. left. reflexivity.
  - discriminate.
Defined.

Lemma C10_example :
  SymCryptDhSecretAgreement keyA key29 1 3 dst0 5 world0 = (SYMCRYPT_INVALID_ARGUMENT, world0).
Proof.
  apply (proj1 (C10_validation_precedence keyA key29 1 3 dst0 5 world0
                  SYMCRYPT_INVALID_ARGUMENT eq_refl)).
Defined.

Lemma C8_example :
  load (heap (SymCryptDhSecretAgreement keyA keyB 2 0 dst0 1 world0).2) dst0 1
  = load (heap (SymCryptDhSecretAgreement keyB keyA 2 0 dst0 1 world0).2) dst0 1.
Proof.
  apply (C8_agreement_commutes group23 5 6 15 keyA keyB 2 1 0 dst0 world0 0 dst0 world0).
  - reflexivity.
  - unfold scratch_fits. vm_compute. repeat split; discriminate.
  - unfold dh_key_of. vm_compute. repeat split; discriminate.
  - unfold dh_key_of. vm_compute. repeat split; discriminate.
  - unfold writable. exists 0%nat, 0, [xee]. split; [reflexivity|]. split; [reflexivity|]. vm_compute. lia.
  - unfold writable. exists 0%nat, 0, [xee]. split; [reflexivity|]. split; [reflexivity|]. vm_compute. lia.
  - vm_compute. reflexivity.
  - vm_compute. reflexivity.
Defined.

End Examples.

(** ** The effect of a call on memory *)

Lemma store_nil h p : store h p [] = h.
Proof.
  destruct p as [|b ofs]; [done|]. unfold store.
  destruct (h !! b) as [bs|] eqn:Hb; [|done].
  apply insert_id. rewrite Hb. f_equal. unfold splice.
  cbn [length take app]. rewrite take_nil, Nat.add_0_r. cbn [app]. by rewrite take_drop.
Qed.

Lemma store_dom h p data : dom (store h p data) = dom h.
Proof.
  destruct p as [|b ofs]; [done|]. unfold store.
  destruct (h !! b) as [bs|] eqn:Hb; [|done].
  apply dom_insert_lookup_L. by rewrite Hb.
Qed.

Lemma store_unallocated h b ofs data : h !! b = None -> store h (Ptr b ofs) data = h.
Proof. intros Hb. unfold store. by rewrite Hb. Qed.

Section Effects.
Context `{Collaborators}.

Implicit Types (pkPrivate pkPublic : SYMCRYPT_DLKEY) (w : World)
  (h : gmap nat (list byte)) (flags cbAgreedSecret : Z) (pbAgreedSecret : pointer).

(** Once the scratch block is released, what remains of the encoder's
    stage is its write to the destination. *)
Lemma heap_encoded_released pkPrivate pkPublic format pbAgreedSecret cbAgreedSecret h :
  delete (scratch_block h)
    (heap_encoded pkPrivate pkPublic format pbAgreedSecret cbAgreedSecret h)
  = store h pbAgreedSecret
      (take (Z.to_nat cbAgreedSecret)
         (getvalue_output pkPrivate pkPublic format cbAgreedSecret h).1.2).
Proof.
  destruct pbAgreedSecret as [|b ofs].
  - unfold heap_encoded. cbv zeta.
    change (store ?h NULL ?d) with h.
    by rewrite delete_store_same, heap_exponentiated_delete.
  - destruct (decide (b = scratch_block h)) as [->|Hne].
    + unfold heap_encoded.
      rewrite !delete_store_same, heap_exponentiated_delete.
      symmetry. apply store_unallocated, scratch_block_fresh.
    + by apply heap_encoded_delete.
Qed.

(** The four ways a call can go. *)
Ltac call_cases pkPrivate pkPublic flags cbAgreedSecret w :=
  let Hv := fresh "Hv" in
  let Ha := fresh "Ha" in
  let Hz := fresh "Hz" in
  destruct (validated pkPrivate pkPublic flags cbAgreedSecret) eqn:Hv;
  [ destruct (alloc_succeeds (heap w) (cbScratch_of (pDlgroup pkPrivate))) eqn:Ha;
    [ rewrite (run_allocated _ _ _ _ _ _ _ Hv Ha); cbv zeta;
      destruct (ModElementIsZero_bytes (pmP (pDlgroup pkPrivate))
                  (secret_element pkPrivate pkPublic (heap w))) eqn:Hz
    | rewrite (run_alloc_failure _ _ _ _ _ _ _ Hv Ha) ]
  | rewrite (run_rejected _ _ _ _ _ _ _ Hv) ];
  cbn [fst snd heap trace].

Ltac call_events Hev :=
  unfold events_of in Hev; cbn [snd fst trace] in Hev;
  first [ apply app_inv_head in Hev
        | rewrite <- (app_nil_r (trace _)) in Hev at 1; apply app_inv_head in Hev ];
  subst.

(** X1.  Whatever the arguments, the heap after a call is the heap before
    it with at most [cbAgreedSecret] bytes written at [pbAgreedSecret]:
    the scratch block is gone again and nothing else was touched. *)
Theorem agreement_memory_effect
    pkPrivate pkPublic format flags pbAgreedSecret cbAgreedSecret w :
  let r := SymCryptDhSecretAgreement pkPrivate pkPublic format flags
             pbAgreedSecret cbAgreedSecret w in
  exists data,
    (length data <= Z.to_nat cbAgreedSecret)%nat
    /\ heap r.2 = store (heap w) pbAgreedSecret data.
Proof.
  cbv zeta. call_cases pkPrivate pkPublic flags cbAgreedSecret w.
  - exists []. split; [cbn; lia|]. by rewrite store_nil.
  - eexists. split; [|apply heap_encoded_released]. rewrite length_take. lia.
  - exists []. split; [cbn; lia|]. by rewrite store_nil.
  - exists []. split; [cbn; lia|]. by rewrite store_nil.
Qed.

(** X2.  A call neither leaks nor frees: the set of live blocks is the
    same after the call, every block that [pbAgreedSecret] does not point
    into holds the same bytes, and every block keeps its length. *)
Theorem agreement_frame
    pkPrivate pkPublic format flags pbAgreedSecret cbAgreedSecret w :
  let r := SymCryptDhSecretAgreement pkPrivate pkPublic format flags
             pbAgreedSecret cbAgreedSecret w in
  dom (heap r.2) = dom (heap w)
  /\ (forall b, (forall ofs, pbAgreedSecret <> Ptr b ofs) -> heap r.2 !! b = heap w !! b)
  /\ (forall b bs, heap w !! b = Some bs ->
        exists bs', heap r.2 !! b = Some bs' /\ length bs' = length bs).
Proof.
  cbv zeta.
  assert (forall data,
    dom (store (heap w) pbAgreedSecret data) = dom (heap w)
    /\ (forall b, (forall ofs, pbAgreedSecret <> Ptr b ofs) ->
          store (heap w) pbAgreedSecret data !! b = heap w !! b)
    /\ (forall b bs, heap w !! b = Some bs ->
          exists bs', store (heap w) pbAgreedSecret data !! b = Some bs'
                      /\ length bs' = length bs)) as Hstore.
  { intros data. split; [apply store_dom|]. split.
    - intros b Hb. destruct pbAgreedSecret as [|b' ofs]; [done|].
      apply store_lookup_ne. intros ->. by apply (Hb ofs).
    - intros b bs Hb. apply store_block_size. by exists bs. }
  call_cases pkPrivate pkPublic flags cbAgreedSecret w;
    [ | rewrite heap_encoded_released; apply Hstore | | ];
    (split; [done|split; [done|intros b bs Hb; by exists bs]]).
Qed.

(** X3.  The heap changes only through the encoder: a call in which
    [SymCryptModElementGetValue] was not called returns with the heap it
    was given. *)
Theorem agreement_writes_only_through_encoder
    pkPrivate pkPublic format flags pbAgreedSecret cbAgreedSecret w evs :
  let r := SymCryptDhSecretAgreement pkPrivate pkPublic format flags
             pbAgreedSecret cbAgreedSecret w in
  events_of w r.2 evs ->
  (forall e, In e evs -> is_get_value e = false) ->
  heap r.2 = heap w.
Proof.
  cbv zeta. call_cases pkPrivate pkPublic flags cbAgreedSecret w; intros Hev Hno;
    try reflexivity.
  call_events Hev.
  specialize (Hno (EvGetValue cbAgreedSecret format
    (getvalue_output pkPrivate pkPublic format cbAgreedSecret (heap w)).1.1)).
  discriminate Hno. cbn [In]. auto.
Qed.


End Effects.

(** ** The value of the shared secret *)

Lemma pow_minus_one_mod (P x : Z) :
  1 < P -> 0 <= x -> (P - 1) ^ x mod P = 1 \/ (P - 1) ^ x mod P = P - 1.
Proof.
  intros HP. revert x. apply natlike_ind.
  - left. rewrite Z.pow_0_r. apply Z.mod_small. lia.
  - intros x Hx IH. rewrite Z.pow_succ_r by done.
    rewrite <- Z.mul_mod_idemp_r by lia. destruct IH as [-> | ->].
    + right. rewrite Z.mul_1_r. apply Z.mod_small. lia.
    + left. replace ((P - 1) * (P - 1)) with (1 + (P - 2) * P) by lia.
      rewrite Z.mod_add by lia. apply Z.mod_small. lia.
Qed.

Section Secret.
Context `{ArithmeticContract}.

Implicit Types (pkPrivate pkPublic : SYMCRYPT_DLKEY) (w : World)
  (h : gmap nat (list byte)) (flags cbAgreedSecret : Z) (pbAgreedSecret : pointer).

(** The zero test of dh.c is a test of Y^x mod P. *)
Lemma secret_element_zero pkPrivate pkPublic h :
  zero_test_decides_value ->
  scratch_fits (pDlgroup pkPrivate) ->
  0 < modulus_value pkPrivate ->
  0 <= private_value pkPrivate < 2 ^ nBitsOfExp_of pkPrivate (pDlgroup pkPrivate) ->
  ModElementIsZero_bytes (pmP (pDlgroup pkPrivate)) (secret_element pkPrivate pkPublic h)
  = true
  <-> shared_secret pkPrivate pkPublic = 0.
Proof.
  intros Hzero Hfit HP Hx.
  destruct (secret_element_correct (pDlgroup pkPrivate) pkPrivate pkPublic h
              eq_refl Hfit HP Hx) as [Hlen Hval].
  rewrite (Hzero _ _ Hlen), Hval. reflexivity.
Qed.

Lemma validated_intro pkPrivate pkPublic flags cbAgreedSecret :
  flags = 0 ->
  fHasPrivateKey pkPrivate = true ->
  SymCryptDlgroupIsSame (pDlgroup pkPrivate) (pDlgroup pkPublic) = true ->
  cbAgreedSecret = SymCryptDlkeySizeofPublicKey pkPrivate ->
  validated pkPrivate pkPublic flags cbAgreedSecret = true.
Proof. intros -> Hp Hs ->. unfold validated. by rewrite Hp, Hs, !Z.eqb_refl. Qed.

(** X6.  Over an arithmetic layer that meets the contract, a successful
    call leaves in the destination what the encoder writes for an element
    of value Y^x mod P, where Y is the public element of [pkPublic], x the
    private exponent of [pkPrivate] (within its exponent length) and P
    the modulus of [pkPrivate]'s group. *)
Theorem agreement_encodes_shared_secret
    pkPrivate pkPublic format flags pbAgreedSecret cbAgreedSecret w el scr :
  let r := SymCryptDhSecretAgreement pkPrivate pkPublic format flags
             pbAgreedSecret cbAgreedSecret w in
  let pm := pmP (pDlgroup pkPrivate) in
  r.1 = SYMCRYPT_NO_ERROR ->
  writable (heap w) pbAgreedSecret cbAgreedSecret ->
  scratch_fits (pDlgroup pkPrivate) ->
  0 < modulus_value pkPrivate ->
  0 <= private_value pkPrivate < 2 ^ nBitsOfExp_of pkPrivate (pDlgroup pkPrivate) ->
  length el = Z.to_nat (SymCryptSizeofModElementFromModulus pm) ->
  ModElementValue pm el = shared_secret pkPrivate pkPublic ->
  load (heap r.2) pbAgreedSecret cbAgreedSecret
  = (ModElementGetValue_bytes pm el cbAgreedSecret format scr).1.2.
Proof.
  intros r pm Hok Hw Hfit HP Hx Hlen Hval. subst r pm.
  destruct (agreement_output _ _ _ _ _ _ _ Hok Hw) as [_ ->].
  destruct (secret_element_correct (pDlgroup pkPrivate) pkPrivate pkPublic (heap w)
              eq_refl Hfit HP Hx) as [Hlen' Hval'].
  unfold getvalue_output. f_equal.
  apply GetValue_of_value; [congruence|]. by rewrite Hval', Hval.
Qed.

(** X7.  Over an arithmetic layer that meets the contract and whose zero
    test tells value zero: in a call that passes validation and obtains
    its scratch block, the zero check rejects exactly the shared secret
    Y^x mod P = 0.  If it is zero the call returns [SYMCRYPT_INVALID_BLOB]
    with the heap unchanged and the encoder never called; if it is not,
    the encoder is called and its status is the one returned. *)
Theorem zero_check_tests_shared_secret
    pkPrivate pkPublic format flags pbAgreedSecret cbAgreedSecret w evs :
  let r := SymCryptDhSecretAgreement pkPrivate pkPublic format flags
             pbAgreedSecret cbAgreedSecret w in
  zero_test_decides_value ->
  flags = 0 ->
  fHasPrivateKey pkPrivate = true ->
  SymCryptDlgroupIsSame (pDlgroup pkPrivate) (pDlgroup pkPublic) = true ->
  cbAgreedSecret = SymCryptDlkeySizeofPublicKey pkPrivate ->
  alloc_succeeds (heap w) (cbScratch_of (pDlgroup pkPrivate)) = true ->
  scratch_fits (pDlgroup pkPrivate) ->
  0 < modulus_value pkPrivate ->
  0 <= private_value pkPrivate < 2 ^ nBitsOfExp_of pkPrivate (pDlgroup pkPrivate) ->
  events_of w r.2 evs ->
  (shared_secret pkPrivate pkPublic = 0 ->
     r.1 = SYMCRYPT_INVALID_BLOB /\ heap r.2 = heap w
     /\ forall e, In e evs -> is_get_value e = false)
  /\ (shared_secret pkPrivate pkPublic <> 0 ->
        In (EvGetValue cbAgreedSecret format r.1) evs).
Proof.
  intros r Hzero Hf Hp Hs Hc Ha Hfit HP Hx. subst r.
  pose proof (validated_intro _ _ _ _ Hf Hp Hs Hc) as Hv.
  pose proof (secret_element_zero pkPrivate pkPublic (heap w) Hzero Hfit HP Hx) as Hiff.
  rewrite (run_allocated _ _ _ _ _ _ _ Hv Ha). cbv zeta.
  destruct (ModElementIsZero_bytes _ _); cbn [fst snd heap trace]; intros Hev;
    unfold events_of in Hev; cbn [trace] in Hev; apply app_inv_head in Hev; subst evs.
  - split.
    + intros _. split; [done|]. split; [done|].
      intros e Hin. cbn [In] in Hin. intuition (subst; done).
    + intros Hne. destruct Hne. by apply Hiff.
  - split.
    + intros Hs0. apply Hiff in Hs0. discriminate Hs0.
    + intros _. cbn [In]. auto.
Qed.

(** X8.  "Y = 0 leads to S = 0" (the comment at the head of dh.c): under
    the same assumptions a public element of value 0 with a private
    exponent greater than 0 is rejected with [SYMCRYPT_INVALID_BLOB] and
    the heap is unchanged. *)
Theorem zero_public_key_rejected
    pkPrivate pkPublic format flags pbAgreedSecret cbAgreedSecret w :
  let r := SymCryptDhSecretAgreement pkPrivate pkPublic format flags
             pbAgreedSecret cbAgreedSecret w in
  zero_test_decides_value ->
  flags = 0 ->
  fHasPrivateKey pkPrivate = true ->
  SymCryptDlgroupIsSame (pDlgroup pkPrivate) (pDlgroup pkPublic) = true ->
  cbAgreedSecret = SymCryptDlkeySizeofPublicKey pkPrivate ->
  alloc_succeeds (heap w) (cbScratch_of (pDlgroup pkPrivate)) = true ->
  scratch_fits (pDlgroup pkPrivate) ->
  0 < modulus_value pkPrivate ->
  0 < private_value pkPrivate < 2 ^ nBitsOfExp_of pkPrivate (pDlgroup pkPrivate) ->
  public_value pkPrivate pkPublic = 0 ->
  r.1 = SYMCRYPT_INVALID_BLOB /\ heap r.2 = heap w.
Proof.
  intros r Hzero Hf Hp Hs Hc Ha Hfit HP Hx HY. subst r.
  pose proof (validated_intro _ _ _ _ Hf Hp Hs Hc) as Hv.
  assert (shared_secret pkPrivate pkPublic = 0) as HS.
  { unfold shared_secret. rewrite HY, Z.pow_0_l by lia. by apply Z.mod_0_l, Z.neq_sym, Z.lt_neq. }
  apply (secret_element_zero pkPrivate pkPublic (heap w) Hzero Hfit HP) in HS; [|lia].
  rewrite (run_allocated _ _ _ _ _ _ _ Hv Ha). cbv zeta. by rewrite HS.
Qed.

(** X9.  "Y = 1 leads to S = 1, Y = P-1 leads to S = 1 or P-1" (the
    comment at the head of dh.c), and the function does not reject these
    public elements: under the same assumptions, with P > 1, the shared
    secret is 1 or P - 1 and the call goes on to the encoder, whose
    status it returns. *)
Theorem unit_public_keys_accepted
    pkPrivate pkPublic format flags pbAgreedSecret cbAgreedSecret w evs :
  let r := SymCryptDhSecretAgreement pkPrivate pkPublic format flags
             pbAgreedSecret cbAgreedSecret w in
  let P := modulus_value pkPrivate in
  zero_test_decides_value ->
  flags = 0 ->
  fHasPrivateKey pkPrivate = true ->
  SymCryptDlgroupIsSame (pDlgroup pkPrivate) (pDlgroup pkPublic) = true ->
  cbAgreedSecret = SymCryptDlkeySizeofPublicKey pkPrivate ->
  alloc_succeeds (heap w) (cbScratch_of (pDlgroup pkPrivate)) = true ->
  scratch_fits (pDlgroup pkPrivate) ->
  1 < P ->
  0 <= private_value pkPrivate < 2 ^ nBitsOfExp_of pkPrivate (pDlgroup pkPrivate) ->
  public_value pkPrivate pkPublic = 1 \/ public_value pkPrivate pkPublic = P - 1 ->
  events_of w r.2 evs ->
  (shared_secret pkPrivate pkPublic = 1 \/ shared_secret pkPrivate pkPublic = P - 1)
  /\ In (EvGetValue cbAgreedSecret format r.1) evs.
Proof.
  intros r P Hzero Hf Hp Hs Hc Ha Hfit HP Hx HY. subst r.
  pose proof (validated_intro _ _ _ _ Hf Hp Hs Hc) as Hv.
  assert (shared_secret pkPrivate pkPublic = 1 \/ shared_secret pkPrivate pkPublic = P - 1)
    as HS.
  { unfold shared_secret. fold P. destruct HY as [-> | ->].
    - left. rewrite Z.pow_1_l by lia. apply Z.mod_small. lia.
    - apply pow_minus_one_mod; lia. }
  assert (ModElementIsZero_bytes (pmP (pDlgroup pkPrivate))
            (secret_element pkPrivate pkPublic (heap w)) = false) as Hnz.
  { apply not_true_is_false. intros Hz.
    apply (secret_element_zero pkPrivate pkPublic (heap w) Hzero Hfit) in Hz;
      [| unfold P in HP; lia | done].
    lia. }
  rewrite (run_allocated _ _ _ _ _ _ _ Hv Ha). cbv zeta. rewrite Hnz.
  cbn [fst snd heap trace]. intros Hev.
  unfold events_of in Hev; cbn [trace] in Hev; apply app_inv_head in Hev; subst evs.
  split; [done|]. cbn [In]. auto.
Qed.
End Secret.

(** ** Repeating a call *)

(** Writing the same bytes at the same place twice is writing them once. *)
Lemma splice_idemp (ofs : nat) (data bs : list byte) :
  splice ofs data (splice ofs data bs) = splice ofs data bs.
Proof.
  destruct (decide (ofs <= length bs)%nat) as [Hofs|Hofs].
  - unfold splice at 1. rewrite splice_length. unfold splice.
    rewrite take_app_length' by (rewrite length_take; lia).
    f_equal. f_equal.
    rewrite drop_app_ge by (rewrite length_take; lia).
    rewrite length_take, Nat.min_l by lia.
    replace (ofs + length data - ofs)%nat with (length data) by lia.
    destruct (decide (length data <= length bs - ofs)%nat) as [Hd|Hd].
    + rewrite (take_ge data) by lia. apply drop_app_length.
    + rewrite (drop_ge bs) by lia. rewrite app_nil_r.
      apply drop_ge. rewrite length_take. lia.
  - assert (splice ofs data bs = bs) as Hid; [|by rewrite !Hid].
    unfold splice. rewrite take_ge, drop_ge by lia.
    replace (length bs - ofs)%nat with 0%nat by lia. cbn. by rewrite app_nil_r.
Qed.

Lemma store_idemp h p data : store (store h p data) p data = store h p data.
Proof.
  destruct p as [|b ofs]; [done|].
  apply map_eq. intros b'. destruct (decide (b = b')) as [<-|Hne].
  - rewrite !store_lookup_same. destruct (h !! b); [|done]. cbn.
    by rewrite splice_idemp.
  - by rewrite !store_lookup_ne.
Qed.

Lemma load_block_ext h h' b ofs n :
  h !! b = h' !! b -> load h (Ptr b ofs) n = load h' (Ptr b ofs) n.
Proof. intros Hb. unfold load. by rewrite Hb. Qed.

Lemma store_block_ext h h' b ofs data data' :
  h !! b = h' !! b -> data = data' ->
  store h (Ptr b ofs) data !! b = store h' (Ptr b ofs) data' !! b.
Proof. intros Hb ->. by rewrite !store_lookup_same, Hb. Qed.

Section Repeat.
Context `{Collaborators}.

Implicit Types (pkPrivate pkPublic : SYMCRYPT_DLKEY) (w : World)
  (h : gmap nat (list byte)) (flags cbAgreedSecret : Z) (pbAgreedSecret : pointer).

(** The stages of a call read the caller's heap only through the set of
    its live blocks: everything they compute lives in the scratch block. *)
Lemma stages_of_equal_domains pkPrivate pkPublic format cbAgreedSecret h h' :
  dom h' = dom h ->
  scratch_block h' = scratch_block h
  /\ secret_element pkPrivate pkPublic h' = secret_element pkPrivate pkPublic h
  /\ getvalue_output pkPrivate pkPublic format cbAgreedSecret h'
     = getvalue_output pkPrivate pkPublic format cbAgreedSecret h.
Proof.
  intros Hdom.
  assert (scratch_block h' = scratch_block h) as Hb by (unfold scratch_block; by rewrite Hdom).
  set (G := pDlgroup pkPrivate).
  set (b := scratch_block h) in *.
  assert (heap_created G h' !! b = heap_created G h !! b) as Hcreated.
  { unfold heap_created. rewrite Hb. fold b.
    assert (heap_allocated G h' !! b = heap_allocated G h !! b) as Halloc.
    { unfold heap_allocated. rewrite Hb. fold b. by rewrite !lookup_insert_eq. }
    apply store_block_ext; [done|]. by rewrite (load_block_ext _ _ _ _ _ Halloc). }
  assert (modexp_output pkPrivate pkPublic h' = modexp_output pkPrivate pkPublic h) as Hout.
  { unfold modexp_output. rewrite Hb. fold G b.
    by rewrite !(load_block_ext _ _ _ _ _ Hcreated). }
  assert (heap_exponentiated pkPrivate pkPublic h' !! b
          = heap_exponentiated pkPrivate pkPublic h !! b) as Hexp.
  { unfold heap_exponentiated. rewrite Hb, Hout. fold G b.
    apply store_block_ext; [|done]. by apply store_block_ext. }
  assert (secret_element pkPrivate pkPublic h' = secret_element pkPrivate pkPublic h)
    as Hsecret.
  { unfold secret_element. rewrite Hb. fold b. by apply load_block_ext. }
  split; [done|]. split; [done|].
  unfold getvalue_output. rewrite Hsecret, Hb. fold G b.
  by rewrite (load_block_ext _ _ _ _ _ Hexp).
Qed.

(** X12.  A call keeps nothing from one invocation to the next: repeating
    a call with the same arguments on the world the first call left, with
    the allocator answering as before, returns the same status and leaves
    the heap as the first call left it. *)
Theorem agreement_repeatable
    pkPrivate pkPublic format flags pbAgreedSecret cbAgreedSecret w :
  let r1 := SymCryptDhSecretAgreement pkPrivate pkPublic format flags
              pbAgreedSecret cbAgreedSecret w in
  let r2 := SymCryptDhSecretAgreement pkPrivate pkPublic format flags
              pbAgreedSecret cbAgreedSecret r1.2 in
  alloc_succeeds (heap r1.2) (cbScratch_of (pDlgroup pkPrivate))
  = alloc_succeeds (heap w) (cbScratch_of (pDlgroup pkPrivate)) ->
  r2.1 = r1.1 /\ heap r2.2 = heap r1.2.
Proof.
  cbv zeta.
  destruct (validated pkPrivate pkPublic flags cbAgreedSecret) eqn:Hv.
  2:{ rewrite !(run_rejected _ _ _ _ _ _ _ Hv). done. }
  destruct (alloc_succeeds (heap w) (cbScratch_of (pDlgroup pkPrivate))) eqn:Ha.
  2:{ rewrite (run_alloc_failure _ _ _ _ _ _ w Hv Ha). cbn [snd heap]. intros Ha'.
      rewrite (run_alloc_failure _ _ _ _ _ _ _ Hv); done. }
  rewrite (run_allocated _ _ _ _ _ _ w Hv Ha). cbv zeta.
  destruct (ModElementIsZero_bytes _ (secret_element pkPrivate pkPublic (heap w))) eqn:Hz;
    cbn [fst snd heap]; intros Ha'.
  - rewrite (run_allocated _ _ _ _ _ _ _ Hv); [|done]. cbv zeta. cbn [heap].
    by rewrite Hz.
  - rewrite (run_allocated _ _ _ _ _ _ _ Hv); [|done]. cbv zeta. cbn [heap].
    rewrite !heap_encoded_released.
    set (h1 := store (heap w) pbAgreedSecret _).
    destruct (stages_of_equal_domains pkPrivate pkPublic format cbAgreedSecret
                (heap w) h1 (store_dom _ _ _)) as (_ & Hsecret & Hget).
    rewrite Hsecret, Hz. cbn [fst snd heap]. rewrite Hget.
    split; [done|]. apply store_idemp.
Qed.

(** X10.  Of the public-bearing key the function reads the group and the
    public element only: two keys that agree on those give the same
    status and the same world, so a key without a private part serves as
    [pkPublic]. *)
Theorem agreement_reads_group_and_element_of_public_key
    pkPrivate pkPublic pkPublic' format flags pbAgreedSecret cbAgreedSecret w :
  pDlgroup pkPublic' = pDlgroup pkPublic ->
  pePublicKey pkPublic' = pePublicKey pkPublic ->
  SymCryptDhSecretAgreement pkPrivate pkPublic' format flags pbAgreedSecret cbAgreedSecret w
  = SymCryptDhSecretAgreement pkPrivate pkPublic format flags pbAgreedSecret cbAgreedSecret w.
Proof.
  intros HG HY.
  unfold SymCryptDhSecretAgreement, SymCryptDhSecretAgreement_body.
  by rewrite HG, HY.
Qed.

(** X11.  When the size computation stays within [SIZE_T], the working
    region left after the element is exactly the larger of the two scratch
    requirements, hence enough for the exponentiation and for the encoder;
    the block holds the element and the working region, and the element
    region and the working region handed to [SymCryptModExp] have their
    full sizes inside the block. *)
Theorem scratch_regions_in_bounds (G : SYMCRYPT_DLGROUP) h :
  let cbModelement := SymCryptSizeofModElementFromModulus (pmP G) in
  let cbWork := Z.max (SYMCRYPT_SCRATCH_BYTES_FOR_MODEXP (nDigitsOfP G))
                      (SYMCRYPT_SCRATCH_BYTES_FOR_COMMON_MOD_OPERATIONS (nDigitsOfP G)) in
  scratch_fits G ->
  cbScratchInternal_of G = cbWork
  /\ SYMCRYPT_SCRATCH_BYTES_FOR_MODEXP (nDigitsOfP G) <= cbScratchInternal_of G
  /\ SYMCRYPT_SCRATCH_BYTES_FOR_COMMON_MOD_OPERATIONS (nDigitsOfP G) <= cbScratchInternal_of G
  /\ block_size (heap_created G h) (scratch_block h) (Z.to_nat (cbModelement + cbWork))
  /\ length (load (heap_created G h) (Ptr (scratch_block h) 0) cbModelement)
     = Z.to_nat cbModelement
  /\ length (load (heap_created G h) (Ptr (scratch_block h) (0 + cbModelement))
               (cbScratchInternal_of G))
     = Z.to_nat cbWork.
Proof.
  intros cbModelement cbWork (Hel & Hwork & Hfit). fold cbModelement cbWork in Hel, Hwork, Hfit.
  assert (cbScratch_of G = cbModelement + cbWork) as Hcb.
  { unfold cbScratch_of, to_SIZE_T. fold cbModelement cbWork. apply Z.mod_small. lia. }
  assert (cbScratchInternal_of G = cbWork) as Hint.
  { unfold cbScratchInternal_of. rewrite Hcb. fold cbModelement. unfold to_SIZE_T.
    rewrite Z.mod_small by lia. lia. }
  assert (block_size (heap_created G h) (scratch_block h) (Z.to_nat (cbModelement + cbWork)))
    as Hblock.
  { rewrite <- Hcb. unfold heap_created. apply store_block_size, heap_allocated_size. }
  rewrite Hint. split; [done|]. split; [subst cbWork; lia|]. split; [subst cbWork; lia|].
  split; [done|]. split; apply (load_length _ _ _ _ _ Hblock); lia.
Qed.
End Repeat.

(** ** More concrete calls *)

Module MoreExamples.
Import Reference ReferenceFacts ReferenceKeys.

Lemma reference_zero_test : zero_test_decides_value.
Proof. intros pm el _. cbn. apply Z.eqb_eq. Qed.

Lemma on_zero_public_key_heap_unchanged :
  heap (SymCryptDhSecretAgreement keyA keyZero 2 0 dst0 1 world0).2 = heap world0.
Proof.
  apply (agreement_writes_only_through_encoder keyA keyZero 2 0 dst0 1 world0 eventsZero).
  - vm_compute. reflexivity.
  - intros e Hin. cbn [In eventsZero] in Hin.
    destruct Hin as [<-|[<-|[<-|[<-|[]]]]]; reflexivity.
Defined.



Lemma on_success_destination_holds_secret :
  load (heap (SymCryptDhSecretAgreement keyA keyB 1 0 dst0 1 world0).2) dst0 1 = [x02].
Proof.
  rewrite (agreement_encodes_shared_secret keyA keyB 1 0 dst0 1 world0 [x02] []).
  - reflexivity.
  - vm_compute. reflexivity.
  - unfold writable. exists 0%nat, 0, [xee]. split; [reflexivity|].
    split; [reflexivity|]. vm_compute. lia.
  - unfold scratch_fits. vm_compute. repeat split; discriminate.
  - reflexivity.
  - vm_compute. split; [discriminate|reflexivity].
  - reflexivity.
  - reflexivity.
Defined.

Lemma on_nonzero_secret_encoder_called :
  In (EvGetValue 1 1 (SymCryptDhSecretAgreement keyA keyB 1 0 dst0 1 world0).1) eventsAB.
Proof.
  apply (zero_check_tests_shared_secret keyA keyB 1 0 dst0 1 world0 eventsAB).
  - exact reference_zero_test.
  - reflexivity.
  - reflexivity.
  - reflexivity.
  - reflexivity.
  - reflexivity.
  - unfold scratch_fits. vm_compute. repeat split; discriminate.
  - reflexivity.
  - vm_compute. split; [discriminate|reflexivity].
  - vm_compute. reflexivity.
  - vm_compute. discriminate.
Defined.

Lemma on_zero_public_key_rejected :
  (SymCryptDhSecretAgreement keyA keyZero 1 0 dst0 1 world0).1 = SYMCRYPT_INVALID_BLOB
  /\ heap (SymCryptDhSecretAgreement keyA keyZero 1 0 dst0 1 world0).2 = heap world0.
Proof.
  apply (zero_public_key_rejected keyA keyZero 1 0 dst0 1 world0).
  - exact reference_zero_test.
  - reflexivity.
  - reflexivity.
  - reflexivity.
  - reflexivity.
  - reflexivity.
  - unfold scratch_fits. vm_compute. repeat split; discriminate.
  - reflexivity.
  - vm_compute. split; reflexivity.
  - reflexivity.
Defined.

Lemma on_public_key_one_accepted :
  (shared_secret keyA keyOne = 1 \/ shared_secret keyA keyOne = modulus_value keyA - 1)
  /\ In (EvGetValue 1 1 (SymCryptDhSecretAgreement keyA keyOne 1 0 dst0 1 world0).1)
       eventsAOne.
Proof.
  apply (unit_public_keys_accepted keyA keyOne 1 0 dst0 1 world0 eventsAOne).
  - exact reference_zero_test.
  - reflexivity.
  - reflexivity.
  - reflexivity.
  - reflexivity.
  - reflexivity.
  - unfold scratch_fits. vm_compute. repeat split; discriminate.
  - reflexivity.
  - vm_compute. split; [discriminate|reflexivity].
  - left. reflexivity.
  - vm_compute. reflexivity.
Defined.

Lemma on_public_only_key :
  SymCryptDhSecretAgreement keyA keyBPublicOnly 1 0 dst0 1 world0
  = SymCryptDhSecretAgreement keyA keyB 1 0 dst0 1 world0.
Proof.
  apply agreement_reads_group_and_element_of_public_key; reflexivity.
Defined.

Lemma on_group23_scratch_regions :
  cbScratchInternal_of group23 = 18
  /\ length (load (heap_created group23 (heap world0))
               (Ptr (scratch_block (heap world0)) (0 + 1)) (cbScratchInternal_of group23))
     = 18%nat.
Proof.
  destruct (scratch_regions_in_bounds group23 (heap world0))
    as (Hint & _ & _ & _ & _ & Hwork).
  - unfold scratch_fits. vm_compute. repeat split; discriminate.
  - split; [exact Hint|exact Hwork].
Defined.

Lemma on_repeated_call :
  (SymCryptDhSecretAgreement keyA keyB 1 0 dst0 1
     (SymCryptDhSecretAgreement keyA keyB 1 0 dst0 1 world0).2).1
  = (SymCryptDhSecretAgreement keyA keyB 1 0 dst0 1 world0).1.
Proof.
  apply (agreement_repeatable keyA keyB 1 0 dst0 1 world0). reflexivity.
Defined.

(** The public element P - 1 = 22 with the even exponent 6 gives 1. *)
Example minus_one_public_key :
  let r := SymCryptDhSecretAgreement keyA keyMinusOne 1 0 dst0 1 world0 in
  r.1 = SYMCRYPT_NO_ERROR /\ load (heap r.2) dst0 1 = [x01].
Proof. vm_compute. repeat split. Qed.

End MoreExamples.
